(** * PostgreSQL adapter of the database handler: parameter translation,
      statement execution, schema building and transactions.

    The development embeds the TypeScript sources
    [PostgresStatement], [PostgresAdapter], [PostgresSchemaBuilder] and
    [PostgresTableSchemaBuilder] and proves the properties their
    specification states about them.

    Conventions of the embedding.
    - A JavaScript string is the [string] of its UTF-16 code units, one
      [ascii] each: the development covers the texts whose code units are
      below 256.  The characters the code looks for (the sigil, the word
      characters, the single quote, white space) are told apart by their
      code unit.
    - A parameter object is a [js_object]: its own enumerable properties,
      which [Object.keys] counts, and what a property read finds for any
      other name on the rest of the object and on its prototype chain.
    - A number is known by what the code asks of it: the text [String]
      gives for it and whether it is truthy.
    - [async] functions run sequentially: [await] is the bind of the effect
      monad [eff]; a promise that is not awaited is run by [detach].
    - The driver ([pg]) is the environment: a pool hands out clients or
      rejects, a client answers each query or rejects it, and what was asked
      of them is recorded in a trace. *)

From Equations Require Import Equations.
From Stdlib Require Import Ascii String ZArith Lia.
From stdpp Require Import base list strings pretty gmap sets.

Set Warnings "-clear-no-such-hyp".

(** String concatenation unfolds on a constructor, like list append. *)
#[global] Arguments String.append !s1 s2 : simpl nomatch.

(** ** JavaScript values *)

(** A JavaScript number, as far as the code can tell numbers apart: the text
    that [String(x)] and a template literal give for it ([1], [-3], [1.5],
    [1e+21], [NaN], [Infinity]) and whether it is truthy (every number but
    [0], [-0] and [NaN]). *)
Record number : Type := Number {
  number_text : string;
  number_truthy : bool
}.

#[global] Instance number_eq_dec : EqDecision number.
Proof. solve_decision. Defined.

(** The values that travel through the adapter without being inspected, plus
    the primitives the builder tells apart with [typeof], [!== undefined] and
    truthiness.  [VObject] carries the text [String(value)] gives for any
    other value: an object, an array, a function. *)
Inductive value : Type :=
  | VUndefined
  | VNull
  | VBool (b : bool)
  | VNum (x : number)
  | VStr (s : string)
  | VObject (repr : string).

#[global] Instance value_eq_dec : EqDecision value.
Proof. solve_decision. Defined.

(** [String(v)], which is also what [`${v}`] gives. *)
Definition to_text (v : value) : string :=
  match v with
  | VUndefined => "undefined"
  | VNull => "null"
  | VBool b => if b then "true" else "false"
  | VNum x => number_text x
  | VStr s => s
  | VObject repr => repr
  end.

(** [v ? ... : ...]. *)
Definition truthy (v : value) : bool :=
  match v with
  | VUndefined | VNull => false
  | VBool b => b
  | VNum x => number_truthy x
  | VStr s => negb (bool_decide (s = ""))
  | VObject _ => true
  end.

(** ** JavaScript objects *)

(** An object as the code reads one.  [own] holds its own enumerable
    properties, the ones [Object.keys] lists; [inherited] is what a property
    read finds for a name that is not among them: the other own properties
    and, after them, the prototype chain. *)
Record js_object : Type := JsObject {
  own : gmap string value;
  inherited : string → option value
}.

(** [o[name]]. *)
Definition property (o : js_object) (name : string) : value :=
  match own o !! name with
  | Some v => v
  | None => default VUndefined (inherited o name)
  end.

Definition native_function (name : string) : value :=
  VObject ("function " +:+ name +:+ "() { [native code] }").

(** What [Object.prototype] holds: every object written as a literal
    inherits these. *)
Definition object_prototype (name : string) : option value :=
  if decide (name = "constructor") then Some (native_function "Object")
  else if decide (name = "__proto__") then Some (VObject "[object Object]")
  else if decide (name ∈ ["toString"; "toLocaleString"; "valueOf";
                          "hasOwnProperty"; "isPrototypeOf";
                          "propertyIsEnumerable"; "__defineGetter__";
                          "__defineSetter__"; "__lookupGetter__";
                          "__lookupSetter__"])
  then Some (native_function name)
  else None.

(** The object literal [{ k1: v1, ... }]. *)
Definition plain (properties : gmap string value) : js_object :=
  {| own := properties; inherited := object_prototype |}.

(** ** Parameter translator: [PostgresStatement.transformQuery] *)

Module Translator.

(** [\w] of a JavaScript regular expression without the [u] and [i] flags:
    [A-Z], [a-z], [0-9] and [_]. *)
Definition is_word_char (c : ascii) : bool :=
  let n := N_of_ascii c in
  ((65 <=? n) && (n <=? 90) || (97 <=? n) && (n <=? 122)
   || (48 <=? n) && (n <=? 57) || (n =? 95))%N.

Definition is_sigil (c : ascii) : bool := (N_of_ascii c =? 64)%N.

(** The longest prefix of word characters, which is what the greedy [\w+]
    takes, and the text after it. *)
Fixpoint take_word (s : string) : string :=
  match s with
  | String c rest => if is_word_char c then String c (take_word rest) else ""
  | EmptyString => ""
  end.

Fixpoint drop_word (s : string) : string :=
  match s with
  | String c rest => if is_word_char c then drop_word rest else s
  | EmptyString => ""
  end.

Lemma drop_word_length s : String.length (drop_word s) <= String.length s.
Proof.
  induction s as [|c s IH]; simpl; [lia|].
  destruct (is_word_char c); simpl; lia.
Qed.

(** What [String.prototype.replace] sees when it walks the text with the
    global pattern [/@(\w+)/g]: characters outside every match, copied as
    they are, and the matches, each with its capture group. *)
Inductive segment : Type :=
  | Plain (c : ascii)
  | Token (paramName : string).

(** Leftmost matches, each as long as possible, the search resuming right
    after a match. *)
Equations? scan (s : string) : list segment by wf (String.length s) lt :=
  scan EmptyString := [];
  scan (String c rest) with is_sigil c, take_word rest := {
    | true, String d w := Token (String d w) :: scan (drop_word rest)
    | _, _ := Plain c :: scan rest }.
Proof.
  all: simpl; try lia.
  pose proof (drop_word_length rest). lia.
Qed.

(** The state the replacer callback closes over. *)
Record replacer : Type := Replacer {
  paramMap : gmap string nat;
  paramIndex : nat;
  values : list value
}.

Definition replacer_init : replacer :=
  {| paramMap := ∅; paramIndex := 1; values := [] |}.

(** [parameters[paramName]]. *)
Definition param_get (parameters : js_object) (paramName : string) : value :=
  property parameters paramName.

(** The callback: one call per match, returning the replacement text. *)
Definition on_match (parameters : js_object) (paramName : string)
    (st : replacer) : string * replacer :=
  let st' :=
    match paramMap st !! paramName with
    | Some _ => st
    | None =>
        {| paramMap := <[paramName := paramIndex st]> (paramMap st);
           paramIndex := S (paramIndex st);
           values := values st ++ [param_get parameters paramName] |}
    end in
  ("$" +:+ pretty (default 0 (paramMap st' !! paramName)), st').

(** [replace] with a callback: the pieces are joined in text order. *)
Fixpoint replace_all (parameters : js_object) (segs : list segment)
    (st : replacer) : string * replacer :=
  match segs with
  | [] => ("", st)
  | Plain c :: segs' =>
      let '(out, st') := replace_all parameters segs' st in
      (String c out, st')
  | Token paramName :: segs' =>
      let '(piece, st1) := on_match parameters paramName st in
      let '(out, st2) := replace_all parameters segs' st1 in
      (piece +:+ out, st2)
  end.

Record translated : Type := Translated {
  query : string;
  bound : list value
}.

(** [transformQuery(parameters?)] on a statement whose text is [_query]. *)
Definition transformQuery (_query : string)
    (parameters : option js_object) : translated :=
  match parameters with
  | None => {| query := _query; bound := [] |}
  | Some ps =>
      if decide (size (own ps) = 0) then {| query := _query; bound := [] |}
      else
        let '(transformedQuery, st) := replace_all ps (scan _query) replacer_init in
        {| query := transformedQuery; bound := values st |}
  end.

End Translator.

(** ** Effects: the pool, its clients and the promises of the adapter *)

(** A thrown value.  [Error msg] is [new Error(msg)]; the driver rejects
    with values of the same kind. *)
Inductive exn : Type := Error (message : string).

#[global] Instance exn_eq_dec : EqDecision exn.
Proof. solve_decision. Defined.

(** A result row: column names to values. *)
Abbreviation row := (gmap string value).

(** What [client.query] resolves with. *)
Record QueryResult : Type := { rows : list row; rowCount : nat }.

(** What is observable of the adapter from the pool's side, oldest first. *)
Inductive event : Type :=
  | Connect (client : nat)
  | Query (client : nat) (text : string) (vals : list value)
  | Release (client : nat)
  | UnhandledRejection (e : exn).

#[global] Instance event_eq_dec : EqDecision event.
Proof. solve_decision. Defined.

(** A [PoolClient] of the driver: [answer] is what the backend does with a
    query, given everything that happened before it was issued. *)
Record PoolClient : Type := {
  client_id : nat;
  answer : list event -> string -> list value -> exn + QueryResult
}.

(** A [Pool]: [connect] hands out a client or rejects. *)
Record Pool : Type := { connect : list event -> exn + PoolClient }.

(** The fields of a [PostgresStatement] object. *)
Record PostgresStatement : Type := {
  _query : string;
  _client : option PoolClient
}.

(** Statement objects live in a store and are used through references. *)
Record world : Type := World {
  trace : list event;
  heap : list PostgresStatement
}.

Inductive outcome (A : Type) : Type :=
  | Returned (a : A)
  | Thrown (e : exn).
Arguments Returned {A} a.
Arguments Thrown {A} e.

(** A computation of the adapter: a promise once it is settled, together with
    the world it leaves. *)
Definition eff (A : Type) : Type := world -> outcome A * world.

Definition ret {A} (a : A) : eff A := fun w => (Returned a, w).
Definition throw {A} (e : exn) : eff A := fun w => (Thrown e, w).
Definition bind {A B} (m : eff A) (k : A -> eff B) : eff B :=
  fun w => match m w with
           | (Returned a, w') => k a w'
           | (Thrown e, w') => (Thrown e, w')
           end.

Declare Scope eff_scope.
Delimit Scope eff_scope with eff.
Notation "x <- m ;; k" := (bind m (fun x => k))
  (at level 100, m at next level, right associativity) : eff_scope.
Notation "m ;; k" := (bind m (fun _ => k))
  (at level 100, right associativity) : eff_scope.
Open Scope eff_scope.

(** [try { body } finally { fin }]. *)
Definition try_finally {A} (body : eff A) (fin : eff unit) : eff A :=
  fun w => let '(r, w1) := body w in
           match fin w1 with
           | (Returned _, w2) => (r, w2)
           | (Thrown e, w2) => (Thrown e, w2)
           end.

(** [try { body } catch (error) { handler }]. *)
Definition try_catch {A} (body : eff A) (handler : exn -> eff A) : eff A :=
  fun w => match body w with
           | (Returned a, w') => (Returned a, w')
           | (Thrown e, w') => handler e w'
           end.

(** A promise that nobody awaits: its effects happen, its result is dropped,
    and a rejection reaches no caller (the runtime reports it as unhandled).
    The model runs it where it is created; in the runtime it finishes later,
    which the caller cannot observe through its own promise either. *)
Definition detach {A} (m : eff A) : eff unit :=
  fun w => match m w with
           | (Returned _, w') => (Returned tt, w')
           | (Thrown e, w') =>
               (Returned tt, {| trace := trace w' ++ [UnhandledRejection e];
                                heap := heap w' |})
           end.

Definition log (ev : event) : eff unit :=
  fun w => (Returned tt, {| trace := trace w ++ [ev]; heap := heap w |}).

(** [await client.query(text, vals)]: the query is issued, then the backend
    answers or rejects. *)
Definition client_query (c : PoolClient) (text : string) (vals : list value)
    : eff QueryResult :=
  fun w =>
    let w' := {| trace := trace w ++ [Query (client_id c) text vals];
                 heap := heap w |} in
    match answer c (trace w) text vals with
    | inr res => (Returned res, w')
    | inl e => (Thrown e, w')
    end.

(** [client.release()], for a client that is checked out: the client goes
    back to the pool.  The driver makes a second [release()] of the same
    checkout throw; nothing below states what follows a second release. *)
Definition client_release (c : PoolClient) : eff unit :=
  log (Release (client_id c)).

(** [await pool.connect()]. *)
Definition pool_connect (p : Pool) : eff PoolClient :=
  fun w => match connect p (trace w) with
           | inr c => (Returned c, {| trace := trace w ++ [Connect (client_id c)];
                                      heap := heap w |})
           | inl e => (Thrown e, w)
           end.

(** ** Statement executor: [PostgresStatement] *)

Module Statement.

Definition ref := nat.

(** [new PostgresStatement(query, client)]. *)
Definition new (query : string) (client : option PoolClient) : eff ref :=
  fun w => (Returned (length (heap w)),
            {| trace := trace w;
               heap := heap w ++ [{| _query := query; _client := client |}] |}).

Definition get_query (this : ref) : eff string :=
  fun w => (Returned (from_option _query "" (heap w !! this)), w).

(** [this._client]. *)
Definition get_client (this : ref) : eff (option PoolClient) :=
  fun w => (Returned (heap w !! this ≫= _client), w).

(** [this._client = client]. *)
Definition set_client (this : ref) (client : option PoolClient) : eff unit :=
  fun w => (Returned tt,
            {| trace := trace w;
               heap := alter (fun s => {| _query := _query s; _client := client |})
                         this (heap w) |}).

(** [await this._client?.query(query, values)]. *)
Definition query_opt (this : ref) (t : Translator.translated)
    : eff (option QueryResult) :=
  client <- get_client this;;
  match client with
  | Some c => res <- client_query c (Translator.query t) (Translator.bound t);;
              ret (Some res)
  | None => ret None
  end.

(** The [finally] block the three entry points share:
    [this._client?.release(); this._client = undefined]. *)
Definition teardown (this : ref) : eff unit :=
  client <- get_client this;;
  match client with Some c => client_release c | None => ret tt end;;
  set_client this None.

Definition transform (this : ref) (parameters : option js_object)
    : eff Translator.translated :=
  q <- get_query this;;
  ret (Translator.transformQuery q parameters).

Definition run (this : ref) (parameters : option js_object)
    : eff (option QueryResult) :=
  t <- transform this parameters;;
  try_finally (res <- query_opt this t;; ret res) (teardown this).

(** [res?.rows || []]: an array is truthy, also when it is empty. *)
Definition all (this : ref) (parameters : option js_object)
    : eff (list row) :=
  t <- transform this parameters;;
  try_finally
    (res <- query_opt this t;;
     ret (match res with Some r => rows r | None => [] end))
    (teardown this).

(** [res?.rows[0]]: [None] is [undefined]. *)
Definition get (this : ref) (parameters : option js_object)
    : eff (option row) :=
  t <- transform this parameters;;
  try_finally
    (res <- query_opt this t;;
     ret (match res with Some r => rows r !! 0 | None => None end))
    (teardown this).

End Statement.

(** ** Adapter and transaction coordinator: [PostgresAdapter] *)

Module Adapter.

Record PostgresAdapter : Type := { _pool : option Pool }.

Record TableColumnInfo : Type := {
  cid : nat;
  name : value;
  type : value;
  notnull : nat;
  dflt_value : value;
  pk : nat
}.

(** [this._pool ? await this._pool.connect() : undefined]. *)
Definition acquire (this : PostgresAdapter) : eff (option PoolClient) :=
  match _pool this with
  | Some p => c <- pool_connect p;; ret (Some c)
  | None => ret None
  end.

Definition prepare (this : PostgresAdapter) (query : string) : eff Statement.ref :=
  client <- acquire this;;
  Statement.new query client.

Definition exec (this : PostgresAdapter) (query : string) : eff unit :=
  client <- acquire this;;
  statement <- Statement.new query client;;
  Statement.run statement None;;
  ret tt.

(** The two closures of [transaction]. *)
Definition rollback (client : PoolClient) : eff unit :=
  client_query client "ROLLBACK" [];;
  client_release client.

Definition commit (client : PoolClient) : eff unit :=
  client_query client "COMMIT" [];;
  client_release client.

(** The work function is called synchronously with [[]] and is not handed
    the connection: all the coordinator sees of it is whether it returns or
    throws. *)
Definition call_work (fn : list value -> exn + unit) : eff unit :=
  match fn [] with
  | inr _ => ret tt
  | inl e => throw e
  end.

(** [transaction(fn)]; the result is the [commit] closure. *)
Definition transaction (this : PostgresAdapter) (fn : list value -> exn + unit)
    : eff (eff unit) :=
  client <- acquire this;;
  match client with
  | None => throw (Error "Database client is not available for transaction.")
  | Some client =>
      client_query client "BEGIN" [];;
      try_catch
        (call_work fn;; commit client)
        (fun error => rollback client;; throw error);;
      ret (commit client)
  end.

Definition columns_query : string :=
  "
            SELECT *
            FROM information_schema.columns
            WHERE table_name = $1
        ".

Definition field (r : row) (k : string) : value := default VUndefined (r !! k).

Definition column_info (index : nat) (r : row) : TableColumnInfo :=
  {| cid := index;
     name := field r "column_name";
     type := field r "data_type";
     notnull := if decide (field r "is_nullable" = VStr "NO") then 1 else 0;
     dflt_value := field r "column_default";
     pk := 0 |}.

Definition tableColumnInformation (this : PostgresAdapter) (tableName : string)
    : eff (list TableColumnInfo) :=
  client <- acquire this;;
  match client with
  | None => throw (Error "Database client is not available.")
  | Some client =>
      res <- client_query client columns_query [VStr tableName];;
      client_release client;;
      ret (imap column_info (rows res))
  end.

End Adapter.

(** ** Schema table builder: [PostgresTableSchemaBuilder] *)

Module TableBuilder.

(** [ColumnDefinition] of the core package: every field is optional. *)
Record ColumnDefinition : Type := {
  name : option string;
  datatype : option string;
  constraints : option (list string);
  autoincrement : option bool
}.

Definition column (name : string) (datatype : string) : ColumnDefinition :=
  {| name := Some name; datatype := Some datatype;
     constraints := None; autoincrement := None |}.

Definition modifier (constraints : list string) : ColumnDefinition :=
  {| name := None; datatype := None;
     constraints := Some constraints; autoincrement := None |}.

(** Modelled from the spec: [addColumn] of the base class
    [SchemaTableBuilder], which belongs to the core package.  A definition
    with a name is appended as a new column; a definition without one is a
    modifier entry and is attached to the most recently added column: its
    constraints go after that column's and its auto-increment mark is set
    on it.  With no column to attach to, the list is left as it is. *)
Definition addColumn (c : ColumnDefinition) (columns : list ColumnDefinition)
    : list ColumnDefinition :=
  match name c with
  | Some _ => columns ++ [c]
  | None =>
      match last columns with
      | None => columns
      | Some l =>
          removelast columns ++
          [{| name := name l;
              datatype := datatype l;
              constraints :=
                match constraints c with
                | Some cs => Some (default [] (constraints l) ++ cs)
                | None => constraints l
                end;
              autoincrement :=
                match autoincrement c with
                | Some b => Some b
                | None => autoincrement l
                end |}]
      end
  end.

(** JavaScript [WhiteSpace] and [LineTerminator] among the code units below
    256: tab, line feed, vertical tab, form feed, carriage return, space and
    no-break space. *)
Definition is_space (c : ascii) : bool :=
  let n := N_of_ascii c in
  ((9 <=? n) && (n <=? 13) || (n =? 32) || (n =? 160))%N.

Fixpoint trim_start (s : string) : string :=
  match s with
  | String c rest => if is_space c then trim_start rest else s
  | EmptyString => ""
  end.

(** [String.prototype.trim]. *)
Definition trim (s : string) : string :=
  String.rev (trim_start (String.rev (trim_start s))).

(** [Array.prototype.join]. *)
Fixpoint join (sep : string) (l : list string) : string :=
  match l with
  | [] => ""
  | [x] => x
  | x :: l' => x +:+ sep +:+ join sep l'
  end.

(** A string inside a template literal; [undefined] prints as its name. *)
Definition template (s : option string) : string := default "undefined" s.

(** The body of the [map] callback of [build]. *)
Definition definition (c : ColumnDefinition) : string :=
  let definition := trim (template (name c) +:+ " " +:+ default "" (datatype c)) in
  let definition :=
    match constraints c with
    | Some (k :: ks) => definition +:+ " " +:+ join " " (k :: ks)
    | _ => definition
    end in
  match autoincrement c with
  | Some true => template (name c) +:+ " SERIAL"
  | _ => definition
  end.

Definition build (columns : list ColumnDefinition) : string :=
  "(" +:+ join ", " (map definition columns) +:+ ")".

(** *** Datatypes *)

Definition uuid (name : string) := addColumn (column name "UUID").

(** [length ? `VARCHAR(${length})` : 'VARCHAR']; a call without a length
    passes [undefined]. *)
Definition string_ (name : string) (length : value) :=
  addColumn (column name
    (if truthy length then "VARCHAR(" +:+ to_text length +:+ ")"
     else "VARCHAR")).

Definition text (name : string) := addColumn (column name "TEXT").
Definition integer (name : string) := addColumn (column name "INTEGER").

(** [precision !== undefined && scale !== undefined]. *)
Definition decimal (name : string) (precision scale : value) :=
  addColumn (column name
    (if decide (precision ≠ VUndefined ∧ scale ≠ VUndefined)
     then "DECIMAL(" +:+ to_text precision +:+ "," +:+ to_text scale +:+ ")"
     else "DECIMAL")).

Definition float (name : string) := addColumn (column name "REAL").
Definition boolean (name : string) := addColumn (column name "BOOLEAN").
Definition json (name : string) := addColumn (column name "JSONB").

(** [v.replace(/'/g, "''")]. *)
Fixpoint escape_quotes (v : string) : string :=
  match v with
  | String c rest =>
      if decide (c = "'"%char) then String c (String c (escape_quotes rest))
      else String c (escape_quotes rest)
  | EmptyString => ""
  end.

Definition quoted (v : string) : string := "'" +:+ escape_quotes v +:+ "'".

Definition enum (name : string) (values : list string) :=
  let quotedValues := join ", " (map quoted values) in
  addColumn
    {| name := Some name; datatype := Some "TEXT";
       constraints := Some ["CHECK (" +:+ name +:+ " IN (" +:+ quotedValues +:+ "))"];
       autoincrement := None |}.

Definition timestamp (name : string) := addColumn (column name "TIMESTAMP").
Definition time (name : string) := addColumn (column name "TIME").

Definition timestamps (columns : list ColumnDefinition) :=
  let stamp n := {| name := Some n; datatype := Some "TIMESTAMP";
                    constraints := Some ["DEFAULT CURRENT_TIMESTAMP"];
                    autoincrement := None |} in
  addColumn (stamp "updated_at") (addColumn (stamp "created_at") columns).

(** *** Constraints *)

(** The guard every modifier starts with:
    [if (this.columns.length === 0) throw new Error(...)]. *)
Definition requires_column (method : string) (columns : list ColumnDefinition)
    : exn + unit :=
  if decide (length columns = 0)
  then inl (Error (method +:+
         "() requires a previous column. Call a datatype method first."))
  else inr tt.

Definition guarded (method : string) (c : ColumnDefinition)
    (columns : list ColumnDefinition) : exn + list ColumnDefinition :=
  match requires_column method columns with
  | inl e => inl e
  | inr _ => inr (addColumn c columns)
  end.

Definition increments :=
  guarded "increments"
    {| name := None; datatype := None; constraints := None;
       autoincrement := Some true |}.

Definition primaryKey := guarded "primaryKey" (modifier ["PRIMARY KEY"]).

Definition foreignKey (referenceTable referenceColumn : string) :=
  guarded "foreignKey"
    (modifier ["REFERENCES " +:+ referenceTable +:+ "(" +:+ referenceColumn +:+ ")"]).

Definition unique := guarded "unique" (modifier ["UNIQUE"]).
Definition nullable := guarded "nullable" (modifier ["NULLABLE"]).

(** The text of [`${defaultValue}`] after the [typeof] dispatch: a string
    between quotes, a number or a boolean as it is, anything else through
    [String]. *)
Definition default_literal (v : value) : string :=
  match v with
  | VStr s => "'" +:+ s +:+ "'"
  | VNum _ | VBool _ => to_text v
  | VUndefined | VNull | VObject _ => to_text v
  end.

Definition defaultTo (v : value) :=
  guarded "defaultTo" (modifier ["DEFAULT " +:+ default_literal v]).

Definition softDeletes (columns : list ColumnDefinition) :=
  nullable (addColumn (column "deleted_at" "TIMESTAMP") columns).

Definition morphs (name : string) (columns : list ColumnDefinition) :=
  string_ (name +:+ "_type") VUndefined (integer (name +:+ "_id") columns).

End TableBuilder.

(** ** Schema builder: [PostgresSchemaBuilder] *)

Module SchemaBuilder.

Import TableBuilder.

(** The callback fills a fresh builder; a modifier it calls out of place
    throws, which rejects the promise of the enclosing [async] function. *)
Definition run_callback (callback : list ColumnDefinition -> exn + list ColumnDefinition)
    : eff (list ColumnDefinition) :=
  match callback [] with
  | inr columns => ret columns
  | inl e => throw e
  end.

(** [statement.run()] is not awaited. *)
Definition createTable (_adapter : Adapter.PostgresAdapter) (name : string)
    (callback : list ColumnDefinition -> exn + list ColumnDefinition) : eff unit :=
  tableBuilder <- run_callback callback;;
  let cols := build tableBuilder in
  let query := "CREATE TABLE IF NOT EXISTS " +:+ name +:+ " " +:+ cols in
  statement <- Adapter.prepare _adapter query;;
  detach (Statement.run statement None).

Definition dropTable (_adapter : Adapter.PostgresAdapter) (name : string) : eff unit :=
  let query := "DROP TABLE IF EXISTS " +:+ name in
  statement <- Adapter.prepare _adapter query;;
  detach (Statement.run statement None).

Definition alterTable (_adapter : Adapter.PostgresAdapter) (_oldName : string)
    (_callback : list ColumnDefinition -> exn + list ColumnDefinition) : eff unit :=
  throw (Error "Method not implemented.").

End SchemaBuilder.

(** ** Vocabulary of the specification *)

Module Spec.

Import TableBuilder.

(** The six modifier calls of the table builder. *)
Inductive modifier_call : Type :=
  | CallUnique
  | CallPrimaryKey
  | CallForeignKey (referenceTable referenceColumn : string)
  | CallNullable
  | CallDefaultTo (v : value)
  | CallIncrements.

Definition invoke (m : modifier_call) (columns : list ColumnDefinition)
    : exn + list ColumnDefinition :=
  match m with
  | CallUnique => unique columns
  | CallPrimaryKey => primaryKey columns
  | CallForeignKey t c => foreignKey t c columns
  | CallNullable => nullable columns
  | CallDefaultTo v => defaultTo v columns
  | CallIncrements => increments columns
  end.

Definition method_name (m : modifier_call) : string :=
  match m with
  | CallUnique => "unique"
  | CallPrimaryKey => "primaryKey"
  | CallForeignKey _ _ => "foreignKey"
  | CallNullable => "nullable"
  | CallDefaultTo _ => "defaultTo"
  | CallIncrements => "increments"
  end.

(** The usage error a misplaced modifier reports. *)
Definition usage_error (m : modifier_call) : exn :=
  Error (method_name m +:+
         "() requires a previous column. Call a datatype method first.").

Abbreviation quote := "'"%char.

(** Number of single quotes in a text. *)
Fixpoint quotes (s : string) : nat :=
  match s with
  | String c rest => (if decide (c = quote) then 1 else 0) + quotes rest
  | EmptyString => 0
  end.

(** How SQL reads the body of a quoted literal: two quotes in a row stand
    for one quote character, a quote on its own does not belong there. *)
Fixpoint read_literal_body (s : string) : option string :=
  match s with
  | EmptyString => Some ""
  | String c rest =>
      if decide (c = quote) then
        match rest with
        | String d rest' =>
            if decide (d = quote) then String quote <$> read_literal_body rest'
            else None
        | EmptyString => None
        end
      else String c <$> read_literal_body rest
  end.

(** The column [enum(name, values)] declares. *)
Definition enum_column (name : string) (values : list string) : ColumnDefinition :=
  {| name := Some name; datatype := Some "TEXT";
     constraints :=
       Some ["CHECK (" +:+ name +:+ " IN (" +:+
             join ", " (map (fun v => "'" +:+ escape_quotes v +:+ "'") values) +:+ "))"];
     autoincrement := None |}.

(** A column with one more constraint at the end of its list. *)
Definition with_constraint (c : ColumnDefinition) (k : string) : ColumnDefinition :=
  {| name := name c; datatype := datatype c;
     constraints := Some (default [] (constraints c) ++ [k]);
     autoincrement := autoincrement c |}.

(** *** Named parameters of a text *)

Definition token_name (seg : Translator.segment) : option string :=
  match seg with
  | Translator.Token n => Some n
  | Translator.Plain _ => None
  end.

(** The piece of the text a segment stands for. *)
Definition source_of (seg : Translator.segment) : string :=
  match seg with
  | Translator.Plain c => String c ""
  | Translator.Token n => String "@" n
  end.

Fixpoint unscan (segs : list Translator.segment) : string :=
  match segs with
  | [] => ""
  | seg :: rest => source_of seg +:+ unscan rest
  end.

(** A text made of word characters only. *)
Fixpoint all_word (s : string) : bool :=
  match s with
  | String c rest => Translator.is_word_char c && all_word rest
  | EmptyString => true
  end.

(** *** Tokens, as the specification words them *)

(** A letter, a digit or the underscore. *)
Definition word_character (c : ascii) : bool :=
  bool_decide
    (c ∈ list_ascii_of_string
           "ABCDEFGHIJKLMNOPQRSTUVWXYZabcdefghijklmnopqrstuvwxyz0123456789_").

Definition sigil : ascii := "@"%char.

(** A word: word characters only. *)
Fixpoint word (s : string) : bool :=
  match s with
  | String c rest => word_character c && word rest
  | EmptyString => true
  end.

Definition starts_with_word_character (s : string) : bool :=
  match s with
  | String c _ => word_character c
  | EmptyString => false
  end.

(** [tokenises q segs]: read from left to right, the text [q] is the
    sequence [segs] of named-parameter tokens, each the sigil followed by a
    word that is as long as the text allows, and of the characters that
    belong to no token. *)
Inductive tokenises : string → list Translator.segment → Prop :=
  | tokenises_end : tokenises "" []
  | tokenises_character c rest segs :
      c ≠ sigil ∨ starts_with_word_character rest = false →
      tokenises rest segs →
      tokenises (String c rest) (Translator.Plain c :: segs)
  | tokenises_token name after segs :
      name ≠ "" → word name = true →
      starts_with_word_character after = false →
      tokenises after segs →
      tokenises (String sigil (name +:+ after)) (Translator.Token name :: segs).

(** The names of the tokens, one per occurrence, in text order. *)
Definition names_of (segs : list Translator.segment) : list string :=
  omap token_name segs.

Definition param_names (q : string) : list string :=
  names_of (Translator.scan q).

(** Number of distinct names in a list. *)
Definition distinct (names : list string) : nat :=
  size (list_to_set names : gset string).

(** The occurrences that come before the first occurrence of [n]. *)
Fixpoint before_first (n : string) (names : list string) : list string :=
  match names with
  | [] => []
  | m :: rest => if decide (m = n) then [] else m :: before_first n rest
  end.

(** The index a name gets when indices are given in order of first
    appearance, starting at 1: one more than the number of distinct names
    that appear before it. *)
Definition position (n : string) (names : list string) : nat :=
  S (distinct (before_first n names)).

#[global] Arguments distinct : simpl never.
#[global] Arguments position : simpl never.

(** The text in which every token is replaced by the placeholder of the
    index of its name, and nothing else changes. *)
Fixpoint render (index : string → nat) (segs : list Translator.segment) : string :=
  match segs with
  | [] => ""
  | Translator.Plain c :: rest => String c (render index rest)
  | Translator.Token n :: rest => ("$" +:+ pretty (index n)) +:+ render index rest
  end.

(** The value bound to the placeholder [$k]. *)
Definition bound_at (q : string) (ps : js_object) (k : nat) : option value :=
  Translator.bound (Translator.transformQuery q (Some ps)) !! (k - 1).

(** The state of the replacer once the names [pre] have gone through it. *)
Definition translating (ps : js_object) (pre : list string)
    (st : Translator.replacer) : Prop :=
  Translator.paramIndex st = S (distinct pre) ∧
  length (Translator.values st) = distinct pre ∧
  (∀ n, n ∈ pre →
     Translator.paramMap st !! n = Some (position n pre) ∧
     Translator.values st !! (position n pre - 1) = Some (Translator.param_get ps n)) ∧
  (∀ n, n ∉ pre → Translator.paramMap st !! n = None).

(** *** Observing connections *)

Definition is_release (id : nat) (ev : event) : bool :=
  match ev with
  | Release c => bool_decide (c = id)
  | _ => false
  end.

(** The query [text] issued on client [id], whatever its values. *)
Definition is_query (id : nat) (text : string) (ev : event) : bool :=
  match ev with
  | Query c t _ => bool_decide (c = id) && bool_decide (t = text)
  | _ => false
  end.

Definition count (f : event → bool) (tr : list event) : nat :=
  length (List.filter f tr).

Definition releases (id : nat) (tr : list event) : nat :=
  count (is_release id) tr.

Definition issued (id : nat) (text : string) (tr : list event) : nat :=
  count (is_query id text) tr.

(** What was added to the trace between two worlds. *)
Definition events_since (w w' : world) : list event :=
  drop (length (trace w)) (trace w').

(** *** Calls on a statement *)

Inductive entry_point : Type := EntryRun | EntryAll | EntryGet.

Abbreviation parameters := (option js_object).

(** One call, awaited by a caller who goes on whether it resolved or
    rejected: the world it leaves. *)
Definition call (this : Statement.ref) (e : entry_point) (ps : parameters)
    (w : world) : world :=
  match e with
  | EntryRun => (Statement.run this ps w).2
  | EntryAll => (Statement.all this ps w).2
  | EntryGet => (Statement.get this ps w).2
  end.

(** Calls one after the other. *)
Definition calls (this : Statement.ref) (cs : list (entry_point * parameters))
    (w : world) : world :=
  foldl (fun w c => call this c.1 c.2 w) w cs.

(** A statement after its teardown. *)
Definition released (s : PostgresStatement) : PostgresStatement :=
  {| _query := _query s; _client := None |}.

(** *** Transactions *)

(** The discipline of one invocation of [transaction] on a pool that hands
    out a client: exactly one of [COMMIT] and [ROLLBACK] is issued on the
    client, and the client is released exactly once. *)
Definition transaction_discipline (p : Pool) (fn : list value → exn + unit)
    (w : world) : Prop :=
  ∀ c, connect p (trace w) = inr c →
    let tr := events_since w (Adapter.transaction {| Adapter._pool := Some p |} fn w).2 in
    issued (client_id c) "COMMIT" tr + issued (client_id c) "ROLLBACK" tr = 1 ∧
    releases (client_id c) tr = 1.

(** The driver executed the command [text] at every place where the trace
    [tr] shows it sent to the client [c] after the first [n] events. *)
Definition executed_where_sent (c : PoolClient) (text : string) (n : nat)
    (tr : list event) : Prop :=
  ∀ h rest, tr = h ++ Query (client_id c) text [] :: rest →
            n ≤ length h →
            ∃ res, answer c h text [] = inr res.

(** What the driver says to [COMMIT] sent right after the [BEGIN] of a
    transaction started in the world [w]. *)
Definition commit_reply (c : PoolClient) (w : world) : exn + QueryResult :=
  answer c (trace w ++ [Connect (client_id c); Query (client_id c) "BEGIN" []])
    "COMMIT" [].

(** The work function returned and the driver rejected the [COMMIT]. *)
Definition commit_rejected (c : PoolClient) (fn : list value → exn + unit)
    (w : world) : bool :=
  match fn [], commit_reply c w with
  | inr _, inl _ => true
  | _, _ => false
  end.

(** *** Missing keys *)

(** A token of [q] whose name is no key of the mapping is bound to
    [undefined]. *)
Definition missing_key_binds_undefined (q : string) (ps : js_object)
    (n : string) : Prop :=
  ∀ segs, tokenises q segs → n ∈ names_of segs → own ps !! n = None →
    bound_at q ps (position n (names_of segs)) = Some VUndefined.

(** *** Concrete backends *)

Definition no_rows : QueryResult := {| rows := []; rowCount := 0 |}.

(** A client whose backend executes everything. *)
Definition steady_client : PoolClient :=
  {| client_id := 0; answer := fun _ _ _ => inr no_rows |}.

(** A client whose backend rejects every query. *)
Definition broken_client : PoolClient :=
  {| client_id := 0; answer := fun _ _ _ => inl (Error "connection lost") |}.

(** A client whose backend executes everything but [COMMIT]. *)
Definition uncommitting_client : PoolClient :=
  {| client_id := 0;
     answer := fun _ text _ =>
       if decide (text = "COMMIT") then inl (Error "could not serialize access")
       else inr no_rows |}.

Definition pool_of (c : PoolClient) : Pool := {| connect := fun _ => inr c |}.

Definition adapter_of (c : PoolClient) : Adapter.PostgresAdapter :=
  {| Adapter._pool := Some (pool_of c) |}.

Definition fresh : world := {| trace := []; heap := [] |}.

End Spec.

(** ** Vocabulary of the behaviour beyond the specification *)

Module Behaviour.

Import TableBuilder Spec.

(** *** Texts *)

Fixpoint has_sigil (s : string) : bool :=
  match s with
  | String c rest => Translator.is_sigil c || has_sigil rest
  | EmptyString => false
  end.

(** The names of a list, each kept where it stands first. *)
Definition first_occurrences (names : list string) : list string :=
  reverse (remove_dups (reverse names)).

(** *** Chains of modifier calls *)

(** [table.m1().m2()...]: the first call that throws ends the chain. *)
Fixpoint invoke_all (ms : list modifier_call) (columns : list ColumnDefinition)
    : exn + list ColumnDefinition :=
  match ms with
  | [] => inr columns
  | m :: ms' =>
      match invoke m columns with
      | inl e => inl e
      | inr columns' => invoke_all ms' columns'
      end
  end.

(** The constraint a modifier stands for; [increments()] stands for none. *)
Definition constraint_of (m : modifier_call) : option string :=
  match m with
  | CallUnique => Some "UNIQUE"
  | CallPrimaryKey => Some "PRIMARY KEY"
  | CallForeignKey t c => Some ("REFERENCES " +:+ t +:+ "(" +:+ c +:+ ")")
  | CallNullable => Some "NULLABLE"
  | CallDefaultTo v => Some ("DEFAULT " +:+ default_literal v)
  | CallIncrements => None
  end.

(** A text followed by constraints, a space before each. *)
Definition with_suffixes (text : string) (ks : list string) : string :=
  foldl (fun s k => s +:+ " " +:+ k) text ks.

(** What a modifier call makes of the column it is attached to. *)
Definition apply_modifier (m : modifier_call) (l : ColumnDefinition)
    : ColumnDefinition :=
  match constraint_of m with
  | Some k => with_constraint l k
  | None => {| name := name l; datatype := datatype l;
               constraints := constraints l; autoincrement := Some true |}
  end.

(** *** Datatype calls *)

(** The datatype methods that take a name and, some of them, sizes. *)
Inductive datatype_call : Type :=
  | DUuid
  | DString (length : value)
  | DText
  | DInteger
  | DDecimal (precision scale : value)
  | DFloat
  | DBoolean
  | DJson
  | DTimestamp
  | DTime.

Definition declare (d : datatype_call) (name : string)
    : list ColumnDefinition → list ColumnDefinition :=
  match d with
  | DUuid => uuid name
  | DString length => string_ name length
  | DText => text name
  | DInteger => integer name
  | DDecimal precision scale => decimal name precision scale
  | DFloat => float name
  | DBoolean => boolean name
  | DJson => json name
  | DTimestamp => timestamp name
  | DTime => time name
  end.

(** The PostgreSQL type each call stands for.  A length that is falsy (left
    out, [0], [NaN]) counts as no length; a precision and a scale count only
    when neither is [undefined].  Sizes are printed as [String] prints
    them. *)
Definition type_text (d : datatype_call) : string :=
  match d with
  | DUuid => "UUID"
  | DString length =>
      if truthy length then "VARCHAR(" +:+ to_text length +:+ ")" else "VARCHAR"
  | DText => "TEXT"
  | DInteger => "INTEGER"
  | DDecimal precision scale =>
      if decide (precision = VUndefined ∨ scale = VUndefined) then "DECIMAL"
      else "DECIMAL(" +:+ to_text precision +:+ "," +:+ to_text scale +:+ ")"
  | DFloat => "REAL"
  | DBoolean => "BOOLEAN"
  | DJson => "JSONB"
  | DTimestamp => "TIMESTAMP"
  | DTime => "TIME"
  end.

(** *** Backends *)


(** A pool that hands out no client. *)
Definition exhausted_pool : Pool :=
  {| connect := fun _ => inl (Error "timeout exceeded when trying to connect") |}.

(** A catalog of two columns. *)
Definition users_catalog : QueryResult :=
  {| rows :=
       [ {[ "column_name" := VStr "id"; "data_type" := VStr "integer";
            "is_nullable" := VStr "NO";
            "column_default" := VStr "nextval('users_id_seq'::regclass)" ]};
         {[ "column_name" := VStr "email"; "data_type" := VStr "character varying";
            "is_nullable" := VStr "YES"; "column_default" := VNull ]} ];
     rowCount := 2 |}.

Definition catalog_client : PoolClient :=
  {| client_id := 7; answer := fun _ _ _ => inr users_catalog |}.

Definition unconnected : Adapter.PostgresAdapter := {| Adapter._pool := None |}.

End Behaviour.

Example transformQuery_repeated :
  Translator.transformQuery "SELECT * FROM t WHERE a=@x AND b=@x OR c = @y_1"
    (Some (plain {[ "x" := VNum (Number "5" true); "y_1" := VStr "k" ]}))
  = Translator.Translated "SELECT * FROM t WHERE a=$1 AND b=$1 OR c = $2"
      [VNum (Number "5" true); VStr "k"].
Proof. vm_compute. reflexivity. Qed.
Example transformQuery_static :
  Translator.transformQuery "DROP TABLE IF EXISTS t @x" (Some (plain ∅))
  = Translator.Translated "DROP TABLE IF EXISTS t @x" [] ∧
  Translator.transformQuery "DROP TABLE IF EXISTS t @x" None
  = Translator.Translated "DROP TABLE IF EXISTS t @x" [].
Proof. split; vm_compute; reflexivity. Qed.

Example scan_edges :
  Translator.scan "@@id, a@b.c @ @9_z"
  = [Translator.Plain "@"; Translator.Token "id"; Translator.Plain ",";
     Translator.Plain " "; Translator.Plain "a"; Translator.Token "b";
     Translator.Plain "."; Translator.Plain "c"; Translator.Plain " ";
     Translator.Plain "@"; Translator.Plain " "; Translator.Token "9_z"].
Proof. vm_compute. reflexivity. Qed.

Example build_readme_users :
  TableBuilder.build
    (TableBuilder.timestamps
      (TableBuilder.string_ "email" (VNum (Number "100" true))
        (TableBuilder.integer "id" [])))
  = "(id INTEGER, email VARCHAR(100), created_at TIMESTAMP DEFAULT CURRENT_TIMESTAMP, updated_at TIMESTAMP DEFAULT CURRENT_TIMESTAMP)".
Proof. vm_compute. reflexivity. Qed.

Example enum_status :
  map TableBuilder.definition (TableBuilder.enum "status" ["draft"; "published"] [])
  = ["status TEXT CHECK (status IN ('draft', 'published'))"].
Proof. vm_compute. reflexivity. Qed.


(** ** The schema table builder *)

Section TableBuilderFacts.

Import TableBuilder Spec.

Lemma string_app_assoc (a b c : string) : (a +:+ b) +:+ c = a +:+ (b +:+ c).
Proof. induction a as [|x a IH]; simpl; [done|congruence]. Qed.

Lemma string_app_length (a b : string) :
  String.length (a +:+ b) = String.length a + String.length b.
Proof. induction a as [|x a IH]; simpl; [done|congruence]. Qed.

Lemma escape_quotes_app (a b : string) :
  escape_quotes (a +:+ b) = escape_quotes a +:+ escape_quotes b.
Proof.
  induction a as [|x a IH]; simpl; [done|].
  destruct (decide (x = "'"%char)); simpl; by rewrite IH.
Qed.

Lemma escape_quotes_plain (s : string) : quotes s = 0 → escape_quotes s = s.
Proof.
  induction s as [|x s IH]; simpl; [done|].
  destruct (decide (x = "'"%char)); [done|].
  intros H. by rewrite IH.
Qed.

Lemma escape_quotes_length (s : string) :
  String.length (escape_quotes s) = String.length s + quotes s.
Proof.
  induction s as [|x s IH]; simpl; [done|].
  destruct (decide (x = "'"%char)); simpl; rewrite IH; lia.
Qed.

Lemma escape_quotes_count (s : string) : quotes (escape_quotes s) = 2 * quotes s.
Proof.
  induction s as [|x s IH]; simpl; [done|].
  destruct (decide (x = "'"%char)) as [->|Hx]; simpl.
  - rewrite IH. lia.
  - destruct (decide (x = "'"%char)); [done|]. rewrite IH. lia.
Qed.

Lemma read_literal_body_escape (s : string) :
  read_literal_body (escape_quotes s) = Some s.
Proof.
  induction s as [|x s IH]; simpl; [done|].
  destruct (decide (x = "'"%char)) as [->|Hx]; simpl.
  - rewrite IH. done.
  - destruct (decide (x = "'"%char)); [done|]. by rewrite IH.
Qed.

Lemma join_snoc sep (l : list string) (x : string) :
  l ≠ [] → join sep (l ++ [x]) = join sep l +:+ sep +:+ x.
Proof.
  induction l as [|a l IH]; [done|]. intros _.
  destruct l as [|b l]; [done|].
  change (join sep ((a :: b :: l) ++ [x]))
    with (a +:+ sep +:+ join sep ((b :: l) ++ [x])).
  rewrite IH by done.
  change (join sep (a :: b :: l)) with (a +:+ sep +:+ join sep (b :: l)).
  by rewrite !string_app_assoc.
Qed.

Lemma last_snoc_split {A} (l : list A) :
  l ≠ [] → ∃ init x, l = init ++ [x].
Proof.
  intros H. destruct (last l) as [x|] eqn:Hl.
  - apply last_Some in Hl as [init ->]. eauto.
  - apply last_None in Hl. done.
Qed.

Lemma addColumn_named (c : ColumnDefinition) columns n :
  name c = Some n → addColumn c columns = columns ++ [c].
Proof. unfold addColumn. by intros ->. Qed.

Lemma addColumn_modifier (ks : list string) init l :
  addColumn (modifier ks) (init ++ [l])
  = init ++ [{| name := name l; datatype := datatype l;
                constraints := Some (default [] (constraints l) ++ ks);
                autoincrement := autoincrement l |}].
Proof.
  unfold addColumn. simpl. rewrite last_snoc, removelast_last. done.
Qed.

Lemma guarded_nonempty method c columns :
  columns ≠ [] → guarded method c columns = inr (addColumn c columns).
Proof.
  intros H. unfold guarded, requires_column.
  destruct (decide (length columns = 0)) as [H0|]; [|done].
  by apply nil_length_inv in H0.
Qed.

(** Adding a constraint to a column that is not auto-incremented adds the
    constraint, after a space, to what [build] prints for the column. *)
Lemma definition_with_constraint (c : ColumnDefinition) (k : string) :
  autoincrement c ≠ Some true →
  definition (with_constraint c k) = definition c +:+ " " +:+ k.
Proof.
  intros Hauto. destruct c as [n d [[|k0 ks]|] [[]|]]; try done.
  all: unfold definition, with_constraint;
    cbn [name datatype constraints autoincrement default from_option app id].
  all: try reflexivity.
  all: change (k0 :: ks ++ [k]) with ((k0 :: ks) ++ [k]);
       rewrite join_snoc by done.
  all: by rewrite !string_app_assoc.
Qed.

End TableBuilderFacts.

Section TableBuilderClaims.

Import TableBuilder Spec.

(** C7. On a builder with no column, each of the modifiers [unique()],
    [primaryKey()], [foreignKey(...)], [nullable()], [defaultTo(...)] and
    [increments()] throws the usage error that names the method and asks for
    a previous column; on a builder that has a column already, none of them
    throws, and the number of columns stays the same. *)
Theorem modifier_requires_column (m : modifier_call) :
  invoke m [] = inl (usage_error m) ∧
  ∀ (c : ColumnDefinition) (columns : list ColumnDefinition),
    ∃ columns', invoke m (c :: columns) = inr columns' ∧
                length columns' = length (c :: columns).
Proof.
  split; [by destruct m|].
  intros c columns.
  destruct (last_snoc_split (c :: columns)) as (init & l & Heq); [done|].
  rewrite Heq.
  assert (Hne : init ++ [l] ≠ []) by (by destruct init).
  destruct m; simpl;
    unfold unique, primaryKey, foreignKey, nullable, defaultTo, increments;
    rewrite guarded_nonempty by done.
  1-5: rewrite addColumn_modifier; eexists; split; [done|];
       by rewrite !length_app.
  eexists; split; [done|].
  unfold addColumn; simpl. rewrite last_snoc, removelast_last.
  by rewrite !length_app.
Qed.

(** C8. [enum(name, values)] appends a column of datatype [TEXT] whose only
    constraint is the membership check [CHECK (name IN ('v1', 'v2', ...))];
    for [enum('status', ['draft','published'])] the column is printed by
    [build()] as exactly
    [status TEXT CHECK (status IN ('draft', 'published'))]; and in each value
    every single quote is written twice and nothing else changes, so that
    the quoted text read back as an SQL literal is the value. *)
Theorem enum_renders_membership_check :
  (∀ name values columns,
     enum name values columns = columns ++ [enum_column name values]) ∧
  (∀ name values,
     definition (enum_column name values)
     = trim (name +:+ " TEXT") +:+ " CHECK (" +:+ name +:+ " IN (" +:+
       join ", " (map (fun v => "'" +:+ escape_quotes v +:+ "'") values) +:+ "))") ∧
  map definition (enum "status" ["draft"; "published"] [])
    = ["status TEXT CHECK (status IN ('draft', 'published'))"] ∧
  build (enum "status" ["draft"; "published"] [])
    = "(status TEXT CHECK (status IN ('draft', 'published')))" ∧
  (∀ a b, escape_quotes (a +:+ String quote b)
          = escape_quotes a +:+ String quote (String quote (escape_quotes b))) ∧
  (∀ v, quotes v = 0 → escape_quotes v = v) ∧
  (∀ v, quotes (escape_quotes v) = 2 * quotes v ∧
        read_literal_body (escape_quotes v) = Some v).
Proof.
  split_and!.
  - intros name values columns. unfold enum. by erewrite addColumn_named.
  - intros name values. unfold definition, enum_column; simpl. reflexivity.
  - vm_compute. reflexivity.
  - vm_compute. reflexivity.
  - intros a b. rewrite escape_quotes_app. simpl.
    by destruct (decide (quote = quote)).
  - apply escape_quotes_plain.
  - intros v. split; [apply escape_quotes_count|apply read_literal_body_escape].
Qed.

(** C10. On a builder whose last column is [l], [defaultTo(v)] with a string
    [v] adds to [l] exactly the constraint [DEFAULT '<v>'], the text of [v]
    standing between the two quotes as it is: a quote inside [v] is not
    doubled, so the text differs from the one [enum] would write whenever
    [v] holds a quote.  A number or a boolean is printed as [String] prints
    it ([1], [1.5], [1e+21], [true]), with no quotes around it. *)
Theorem defaultTo_renders_verbatim (init : list ColumnDefinition) (l : ColumnDefinition) :
  (∀ v, defaultTo (VStr v) (init ++ [l])
        = inr (init ++ [with_constraint l ("DEFAULT '" +:+ v +:+ "'")])) ∧
  (∀ v, String.length ("DEFAULT '" +:+ v +:+ "'") = 10 + String.length v ∧
        ("'" +:+ v +:+ "'" = quoted v ↔ quotes v = 0)) ∧
  (∀ x, defaultTo (VNum x) (init ++ [l])
        = inr (init ++ [with_constraint l ("DEFAULT " +:+ number_text x)])) ∧
  (∀ b, defaultTo (VBool b) (init ++ [l])
        = inr (init ++ [with_constraint l
                          ("DEFAULT " +:+ if b then "true" else "false")])) ∧
  (sum_map id build (defaultTo (VStr "it's") (text "note" []))
     = inr "(note TEXT DEFAULT 'it's')" ∧
   sum_map id build (defaultTo (VNum (Number "1" true)) (integer "status" []))
     = inr "(status INTEGER DEFAULT 1)" ∧
   sum_map id build (defaultTo (VNum (Number "1e+21" true)) (float "mass" []))
     = inr "(mass REAL DEFAULT 1e+21)" ∧
   sum_map id build (defaultTo (VNum (Number "0.5" true)) (float "rate" []))
     = inr "(rate REAL DEFAULT 0.5)" ∧
   sum_map id build (defaultTo (VBool true) (boolean "is_active" []))
     = inr "(is_active BOOLEAN DEFAULT true)").
Proof.
  assert (Hne : init ++ [l] ≠ []) by (by destruct init).
  split_and!.
  - intros v. unfold defaultTo. rewrite guarded_nonempty by done.
    by rewrite addColumn_modifier.
  - intros v. split.
    + rewrite !string_app_length. simpl. lia.
    + unfold quoted. split.
      * intros H. apply (f_equal String.length) in H.
        rewrite !string_app_length, escape_quotes_length in H. simpl in H. lia.
      * intros H. by rewrite escape_quotes_plain.
  - intros n. unfold defaultTo. rewrite guarded_nonempty by done.
    by rewrite addColumn_modifier.
  - intros b. unfold defaultTo. rewrite guarded_nonempty by done.
    by rewrite addColumn_modifier.
  - vm_compute. reflexivity.
  - vm_compute. reflexivity.
  - vm_compute. reflexivity.
  - vm_compute. reflexivity.
  - vm_compute. reflexivity.
Qed.

End TableBuilderClaims.

(** ** The statement executor *)

Ltac eff_unfold :=
  unfold Statement.run, Statement.all, Statement.get, Statement.transform,
    Statement.get_query, Statement.query_opt, Statement.teardown,
    Statement.get_client, Statement.set_client, Statement.new,
    Adapter.acquire, Adapter.commit, Adapter.rollback, Adapter.call_work,
    pool_connect, client_query, client_release, log,
    try_finally, try_catch, detach, bind, ret, throw.

Section StatementFacts.

Import Spec.

Lemma events_since_app (w : world) (tr : list event) (h : list PostgresStatement) :
  events_since w {| trace := trace w ++ tr; heap := h |} = tr.
Proof. unfold events_since. simpl. by rewrite drop_app_length. Qed.

Lemma events_since_same (w w' : world) : trace w' = trace w → events_since w w' = [].
Proof. unfold events_since. intros ->. by rewrite drop_all. Qed.

Lemma releases_query_release id text vals :
  releases id [Query id text vals; Release id] = 1.
Proof. unfold releases, count. simpl. by rewrite bool_decide_eq_true_2. Qed.

Section WithClient.

Variables (this : Statement.ref) (q : string) (c : PoolClient) (w : world).
Hypothesis Hthis : heap w !! this = Some {| _query := q; _client := Some c |}.

Let after (t : Translator.translated) : world :=
  {| trace := trace w ++ [Query (client_id c) (Translator.query t) (Translator.bound t);
                          Release (client_id c)];
     heap := alter released this (heap w) |}.

Lemma run_with_client ps :
  let t := Translator.transformQuery q ps in
  Statement.run this ps w =
    (match answer c (trace w) (Translator.query t) (Translator.bound t) with
     | inr res => Returned (Some res)
     | inl e => Thrown e
     end, after t).
Proof.
  intros t. eff_unfold. simpl. rewrite Hthis. simpl. fold t.
  destruct (answer c _ _ _); simpl; rewrite Hthis; simpl;
    by rewrite <- app_assoc.
Qed.

Lemma all_with_client ps :
  let t := Translator.transformQuery q ps in
  Statement.all this ps w =
    (match answer c (trace w) (Translator.query t) (Translator.bound t) with
     | inr res => Returned (rows res)
     | inl e => Thrown e
     end, after t).
Proof.
  intros t. eff_unfold. simpl. rewrite Hthis. simpl. fold t.
  destruct (answer c _ _ _); simpl; rewrite Hthis; simpl;
    by rewrite <- app_assoc.
Qed.

Lemma get_with_client ps :
  let t := Translator.transformQuery q ps in
  Statement.get this ps w =
    (match answer c (trace w) (Translator.query t) (Translator.bound t) with
     | inr res => Returned (rows res !! 0)
     | inl e => Thrown e
     end, after t).
Proof.
  intros t. eff_unfold. simpl. rewrite Hthis. simpl. fold t.
  destruct (answer c _ _ _); simpl; rewrite Hthis; simpl;
    by rewrite <- app_assoc.
Qed.

Lemma call_with_client e ps :
  call this e ps w = after (Translator.transformQuery q ps).
Proof.
  destruct e; unfold call.
  - by rewrite run_with_client.
  - by rewrite all_with_client.
  - by rewrite get_with_client.
Qed.

End WithClient.

Section WithoutClient.

Variables (this : Statement.ref) (q : string) (w : world).
Hypothesis Hthis : heap w !! this = Some {| _query := q; _client := None |}.

Let idle : world := {| trace := trace w; heap := alter released this (heap w) |}.

Lemma run_without_client ps : Statement.run this ps w = (Returned None, idle).
Proof. eff_unfold. simpl. rewrite Hthis. simpl. by rewrite Hthis. Qed.

Lemma all_without_client ps : Statement.all this ps w = (Returned [], idle).
Proof. eff_unfold. simpl. rewrite Hthis. simpl. by rewrite Hthis. Qed.

Lemma get_without_client ps : Statement.get this ps w = (Returned None, idle).
Proof. eff_unfold. simpl. rewrite Hthis. simpl. by rewrite Hthis. Qed.

Lemma call_without_client e ps : call this e ps w = idle.
Proof.
  destruct e; unfold call.
  - by rewrite run_without_client.
  - by rewrite all_without_client.
  - by rewrite get_without_client.
Qed.

End WithoutClient.

Lemma lookup_alter_released this (h : list PostgresStatement) s :
  h !! this = Some s → alter released this h !! this = Some (released s).
Proof. intros H. by rewrite list_lookup_alter_eq, H. Qed.

Lemma calls_cons this e ps cs w :
  calls this ((e, ps) :: cs) w = calls this cs (call this e ps w).
Proof. reflexivity. Qed.

(** Calls on a statement that has no client add nothing to the trace. *)
Lemma calls_without_client this q cs : ∀ w,
  heap w !! this = Some {| _query := q; _client := None |} →
  trace (calls this cs w) = trace w.
Proof.
  induction cs as [|[e ps] cs IH]; intros w Hthis; [done|].
  rewrite calls_cons, (call_without_client this q w Hthis).
  rewrite IH; [done|].
  exact (lookup_alter_released _ _ _ Hthis).
Qed.

(** C5. A statement that holds a connection releases it exactly once:
    whichever of [run()], [all()] and [get()] is called first, and whether
    the driver executes the query or rejects it, that call issues the query,
    releases the connection once and forgets it; a call on a statement that
    has forgotten its connection touches no connection at all, so that any
    number of calls, one after the other, release the connection once. *)
Theorem statement_releases_once (this : Statement.ref) (q : string)
    (c : PoolClient) (w : world) :
  heap w !! this = Some {| _query := q; _client := Some c |} →
  (∀ e ps,
     releases (client_id c) (events_since w (call this e ps w)) = 1 ∧
     heap (call this e ps w) !! this = Some {| _query := q; _client := None |}) ∧
  (∀ e ps e' ps',
     events_since (call this e ps w) (call this e' ps' (call this e ps w)) = []) ∧
  (∀ cs, cs ≠ [] →
     releases (client_id c) (events_since w (calls this cs w)) = 1).
Proof.
  intros Hthis.
  assert (Hfirst : ∀ e ps,
    heap (call this e ps w) !! this = Some {| _query := q; _client := None |}).
  { intros e ps. rewrite (call_with_client this q c w Hthis).
    exact (lookup_alter_released _ _ _ Hthis). }
  split_and!.
  - intros e ps. split; [|apply Hfirst].
    rewrite (call_with_client this q c w Hthis), events_since_app.
    apply releases_query_release.
  - intros e ps e' ps'. apply events_since_same.
    by rewrite (call_without_client this q _ (Hfirst e ps)).
  - intros [|[e ps] cs] Hcs; [done|].
    rewrite calls_cons. unfold events_since.
    rewrite (calls_without_client this q cs _ (Hfirst e ps)).
    rewrite (call_with_client this q c w Hthis). simpl.
    rewrite drop_app_length. apply releases_query_release.
Qed.

Lemma statement_releases_once_witness :
  let w := (Statement.new "SELECT 1" (Some broken_client) fresh).2 in
  heap w !! 0 = Some {| _query := "SELECT 1"; _client := Some broken_client |} ∧
  releases 0 (events_since w
    (calls 0 [(EntryGet, None); (EntryRun, None); (EntryAll, None)] w)) = 1.
Proof.
  split; [reflexivity|].
  apply (statement_releases_once 0 "SELECT 1" broken_client
           (Statement.new "SELECT 1" (Some broken_client) fresh).2);
    [reflexivity|discriminate].
Defined.

(** C6. When the driver answers with no rows, [all()] resolves with the
    empty sequence and [get()] resolves with [undefined]; neither rejects.
    The same holds on a statement that has no connection, where no query is
    made at all. *)
Theorem empty_result_is_not_an_error (this : Statement.ref) (q : string)
    (ps : parameters) (w : world) :
  let t := Translator.transformQuery q ps in
  (∀ c res,
     heap w !! this = Some {| _query := q; _client := Some c |} →
     answer c (trace w) (Translator.query t) (Translator.bound t) = inr res →
     rows res = [] →
     (Statement.all this ps w).1 = Returned [] ∧
     (Statement.get this ps w).1 = Returned None) ∧
  (heap w !! this = Some {| _query := q; _client := None |} →
     (Statement.all this ps w).1 = Returned [] ∧
     (Statement.get this ps w).1 = Returned None).
Proof.
  intros t. split.
  - intros c res Hthis Hans Hrows.
    rewrite (all_with_client this q c w Hthis), (get_with_client this q c w Hthis).
    simpl. fold t. rewrite Hans, Hrows. done.
  - intros Hthis.
    by rewrite (all_without_client this q w Hthis), (get_without_client this q w Hthis).
Qed.

Lemma empty_result_is_not_an_error_witness :
  let w := (Statement.new "SELECT * FROM users" (Some steady_client) fresh).2 in
  (Statement.all 0 None w).1 = Returned [] ∧
  (Statement.get 0 None w).1 = Returned None.
Proof.
  apply (empty_result_is_not_an_error 0 "SELECT * FROM users" None
           (Statement.new "SELECT * FROM users" (Some steady_client) fresh).2)
    with (c := steady_client) (res := no_rows); reflexivity.
Defined.

End StatementFacts.

(** ** The adapter: transactions, introspection, schema operations *)

Section AdapterFacts.

Import Spec.

Lemma executed_at (c : PoolClient) (text : string) (n : nat) (h rest : list event) :
  executed_where_sent c text n (h ++ Query (client_id c) text [] :: rest) →
  n ≤ length h →
  ∃ res, answer c h text [] = inr res.
Proof. intros H Hn. by apply (H h rest). Qed.

(** C2, as the code has it.  When the pool hands out a client and the driver
    executes the [BEGIN] and any [ROLLBACK] it is sent on that client, one
    invocation of [transaction] releases the client exactly once, whether
    the work function returns or throws.  It issues [COMMIT] once if the
    work function returns and never otherwise, and [ROLLBACK] once if the
    work function throws or the driver rejects the [COMMIT], and never
    otherwise: exactly one of the two is issued, except that a rejected
    [COMMIT] is followed by [ROLLBACK].  A work function that throws has its
    own error reach the caller. *)
Theorem transaction_settles_once (p : Pool) (fn : list value → exn + unit)
    (w : world) (c : PoolClient) :
  connect p (trace w) = inr c →
  let r := Adapter.transaction {| Adapter._pool := Some p |} fn w in
  let tr := events_since w r.2 in
  let id := client_id c in
  executed_where_sent c "BEGIN" (length (trace w)) (trace r.2) →
  executed_where_sent c "ROLLBACK" (length (trace w)) (trace r.2) →
  releases id tr = 1 ∧
  issued id "COMMIT" tr = (if fn [] is inr _ then 1 else 0) ∧
  issued id "ROLLBACK" tr
    = (if fn [] is inr _ then (if commit_rejected c fn w then 1 else 0) else 1) ∧
  (commit_rejected c fn w = false →
     issued id "COMMIT" tr + issued id "ROLLBACK" tr = 1) ∧
  (commit_rejected c fn w = true →
     tr = [Connect id; Query id "BEGIN" []; Query id "COMMIT" [];
           Query id "ROLLBACK" []; Release id]) ∧
  (∀ e, fn [] = inl e → r.1 = Thrown e).
Proof.
  intros Hc r tr id. subst tr r id.
  unfold commit_rejected, commit_reply.
  unfold Adapter.transaction. eff_unfold. simpl. rewrite Hc. simpl.
  replace (trace w ++ [Connect (client_id c); Query (client_id c) "BEGIN" []])
    with ((trace w ++ [Connect (client_id c)]) ++ [Query (client_id c) "BEGIN" []])
    by (by rewrite <- app_assoc).
  set (h0 := trace w ++ [Connect (client_id c)]).
  assert (Hh0 : length (trace w) ≤ length h0) by (subst h0; rewrite length_app; lia).
  destruct (answer c h0 "BEGIN" []) as [e0|r0] eqn:Hbegin; simpl.
  { intros Hb _. destruct (executed_at c "BEGIN" _ h0 [] Hb Hh0) as [res Hres].
    congruence. }
  set (h1 := h0 ++ [Query (client_id c) "BEGIN" []]).
  assert (Hh1 : length (trace w) ≤ length h1) by (subst h1; rewrite length_app; lia).
  destruct (fn []) as [e|[]]; simpl.
  - destruct (answer c h1 "ROLLBACK" []) as [e1|r1] eqn:Hrb; simpl.
    { intros _ Hr. destruct (executed_at c "ROLLBACK" _ h1 [] Hr Hh1) as [res Hres].
      congruence. }
    intros _ _. subst h1 h0. rewrite <- !app_assoc. simpl.
    rewrite events_since_app. unfold releases, issued, count. simpl.
    rewrite !bool_decide_eq_true_2 by done. simpl.
    split_and!; try done. by intros e' [= ->].
  - destruct (answer c h1 "COMMIT" []) as [e1|r1] eqn:Hcm; simpl.
    + set (h2 := h1 ++ [Query (client_id c) "COMMIT" []]).
      assert (Hh2 : length (trace w) ≤ length h2)
        by (subst h2; rewrite length_app; lia).
      destruct (answer c h2 "ROLLBACK" []) as [e2|r2] eqn:Hrb; simpl.
      { intros _ Hr.
        destruct (executed_at c "ROLLBACK" _ h2 [] Hr Hh2) as [res Hres].
        congruence. }
      intros _ _. subst h2 h1 h0. rewrite <- !app_assoc. simpl.
      rewrite events_since_app. unfold releases, issued, count. simpl.
      rewrite !bool_decide_eq_true_2 by done. simpl.
      split_and!; done.
    + intros _ _. subst h1 h0. rewrite <- !app_assoc. simpl.
      rewrite events_since_app. unfold releases, issued, count. simpl.
      rewrite !bool_decide_eq_true_2 by done. simpl.
      split_and!; done.
Qed.

Lemma transaction_settles_once_witness :
  let r := Adapter.transaction (adapter_of uncommitting_client)
             (fun _ => inl (Error "work failed")) fresh in
  executed_where_sent uncommitting_client "BEGIN" 0 (trace r.2) ∧
  executed_where_sent uncommitting_client "ROLLBACK" 0 (trace r.2) ∧
  releases 0 (events_since fresh r.2) = 1 ∧
  issued 0 "COMMIT" (events_since fresh r.2) = 0 ∧
  issued 0 "ROLLBACK" (events_since fresh r.2) = 1 ∧
  r.1 = Thrown (Error "work failed").
Proof.
  assert (Hexec : ∀ text tr, text ≠ "COMMIT" →
            executed_where_sent uncommitting_client text 0 tr).
  { intros text tr Htext h rest _ _. exists no_rows. simpl.
    by rewrite decide_False. }
  intros r. split; [by apply Hexec|]. split; [by apply Hexec|].
  destruct (transaction_settles_once (pool_of uncommitting_client)
              (fun _ => inl (Error "work failed")) fresh uncommitting_client
              eq_refl (Hexec "BEGIN" _ ltac:(done)) (Hexec "ROLLBACK" _ ltac:(done)))
    as (Hrel & Hcommit & Hrollback & _ & _ & Herr).
  split; [exact Hrel|]. split; [exact Hcommit|]. split; [exact Hrollback|].
  by apply Herr.
Defined.

(** C2 as stated fails when the driver rejects [COMMIT]: the work function
    has returned, [COMMIT] was issued, and the [catch] block then issues
    [ROLLBACK] on the same client. *)
Lemma transaction_commit_rejected_issues_both :
  ¬ transaction_discipline (pool_of uncommitting_client) (fun _ => inr tt) fresh.
Proof.
  intros H. destruct (H uncommitting_client eq_refl) as [Hboth _].
  vm_compute in Hboth. discriminate.
Qed.

Example transaction_commit_rejected_trace :
  trace (Adapter.transaction (adapter_of uncommitting_client) (fun _ => inr tt) fresh).2
  = [Connect 0; Query 0 "BEGIN" []; Query 0 "COMMIT" []; Query 0 "ROLLBACK" [];
     Release 0].
Proof. vm_compute. reflexivity. Qed.

(** C3 at the failing input.  [tableColumnInformation] on a pool whose client
    rejects the catalog query: the error reaches the caller and the client,
    acquired and queried, is never released.  [exec], which goes through the
    [finally] block of the statement, releases the same client on the same
    failure; [transaction], whose [BEGIN] stands before its [try] block,
    does not. *)
Theorem tableColumnInformation_leaks_on_failure :
  Adapter.tableColumnInformation (adapter_of broken_client) "users" fresh
  = (Thrown (Error "connection lost"),
     {| trace := [Connect 0; Query 0 Adapter.columns_query [VStr "users"]];
        heap := [] |}) ∧
  releases 0
    (trace (Adapter.tableColumnInformation (adapter_of broken_client) "users" fresh).2)
  = 0 ∧
  (Adapter.exec (adapter_of broken_client) "SELECT 1" fresh).1
  = Thrown (Error "connection lost") ∧
  trace (Adapter.exec (adapter_of broken_client) "SELECT 1" fresh).2
  = [Connect 0; Query 0 "SELECT 1" []; Release 0] ∧
  trace (Adapter.transaction (adapter_of broken_client) (fun _ => inr tt) fresh).2
  = [Connect 0; Query 0 "BEGIN" []].
Proof. split_and!; vm_compute; reflexivity. Qed.

(** Whatever the driver does with the query, the client of
    [tableColumnInformation] is released only when the query is executed. *)
Lemma tableColumnInformation_release (p : Pool) (c : PoolClient) (w : world)
    (tableName : string) :
  connect p (trace w) = inr c →
  let r := Adapter.tableColumnInformation {| Adapter._pool := Some p |} tableName w in
  releases (client_id c) (events_since w r.2)
  = if answer c (trace w ++ [Connect (client_id c)]) Adapter.columns_query
         [VStr tableName] is inr _ then 1 else 0.
Proof.
  intros Hc r. subst r. unfold Adapter.tableColumnInformation. eff_unfold.
  simpl. rewrite Hc. simpl.
  destruct (answer c _ _ _); simpl; unfold events_since; simpl;
    rewrite <- !app_assoc; simpl; rewrite drop_app_length;
    unfold releases, count; simpl; by rewrite ?bool_decide_eq_true_2.
Qed.

(** The promise of [createTable] and [dropTable] never carries what the
    driver did with the statement. *)
Lemma schema_operation_resolves (p : Pool) (c : PoolClient) (w : world)
    (name : string) columns :
  connect p (trace w) = inr c →
  (SchemaBuilder.createTable {| Adapter._pool := Some p |} name
     (fun _ => inr columns) w).1 = Returned tt ∧
  (SchemaBuilder.dropTable {| Adapter._pool := Some p |} name w).1 = Returned tt.
Proof.
  intros Hc.
  unfold SchemaBuilder.createTable, SchemaBuilder.dropTable,
    SchemaBuilder.run_callback, Adapter.prepare.
  eff_unfold. simpl. rewrite Hc. simpl.
  rewrite !lookup_app_r by done. rewrite Nat.sub_diag. simpl.
  split; destruct (answer c _ _ _); simpl;
    rewrite !lookup_app_r by done; rewrite Nat.sub_diag; done.
Qed.

(** C4 at the failing input.  The driver rejects the statement of
    [createTable] and of [dropTable]; each operation resolves all the same,
    and the error, which no caller can catch, is left to the runtime as an
    unhandled rejection.  [exec], which awaits the statement, rejects with
    the error. *)
Theorem schema_operations_swallow_backend_errors :
  let users := fun t => inr (TableBuilder.integer "id" t) in
  (SchemaBuilder.createTable (adapter_of broken_client) "users" users fresh).1
  = Returned tt ∧
  trace (SchemaBuilder.createTable (adapter_of broken_client) "users" users fresh).2
  = [Connect 0; Query 0 "CREATE TABLE IF NOT EXISTS users (id INTEGER)" [];
     Release 0; UnhandledRejection (Error "connection lost")] ∧
  (SchemaBuilder.dropTable (adapter_of broken_client) "users" fresh).1
  = Returned tt ∧
  trace (SchemaBuilder.dropTable (adapter_of broken_client) "users" fresh).2
  = [Connect 0; Query 0 "DROP TABLE IF EXISTS users" [];
     Release 0; UnhandledRejection (Error "connection lost")] ∧
  (Adapter.exec (adapter_of broken_client) "DROP TABLE IF EXISTS users" fresh).1
  = Thrown (Error "connection lost").
Proof. split_and!; vm_compute; reflexivity. Qed.

End AdapterFacts.

(** ** The parameter translator *)

Section TranslatorFacts.

Import Translator Spec.

Lemma take_drop_word s : take_word s +:+ drop_word s = s.
Proof.
  induction s as [|c s IH]; simpl; [done|].
  destruct (is_word_char c); simpl; [by rewrite IH|done].
Qed.

Lemma take_word_all_word s : all_word (take_word s) = true.
Proof.
  induction s as [|c s IH]; simpl; [done|].
  destruct (is_word_char c) eqn:Hc; simpl; [by rewrite Hc|done].
Qed.

Lemma drop_word_stops s c rest :
  drop_word s = String c rest → is_word_char c = false.
Proof.
  induction s as [|d s IH]; simpl; [done|].
  destruct (is_word_char d) eqn:Hd; [done|]. by intros [= <- _].
Qed.

Lemma is_sigil_at c : is_sigil c = true → c = "@"%char.
Proof.
  unfold is_sigil. intros H%N.eqb_eq.
  rewrite <- (ascii_N_embedding c), H. reflexivity.
Qed.

(** The segments cut the text without losing or adding a character. *)
Lemma scan_unscan q : unscan (scan q) = q.
Proof.
  funelim (scan q); simp scan; try rewrite Heq; simpl.
  - done.
  - by rewrite H.
  - rewrite H. apply is_sigil_at in Heq0 as ->.
    rewrite <- (take_drop_word rest) at 2. by rewrite Heq.
  - by rewrite H.
Qed.

(** A token is the sigil followed by one word character at least and by
    word characters only. *)
Lemma scan_token_word q n : Token n ∈ scan q → n ≠ "" ∧ all_word n = true.
Proof.
  funelim (scan q); simp scan; try rewrite Heq; simpl.
  - by intros ?%elem_of_nil.
  - intros [?|?]%elem_of_cons; [done|auto].
  - intros [[= ->]|?]%elem_of_cons; [|auto].
    split; [done|]. rewrite <- Heq. apply take_word_all_word.
  - intros [?|?]%elem_of_cons; [done|auto].
Qed.

Lemma before_first_app_in n l l' :
  n ∈ l → before_first n (l ++ l') = before_first n l.
Proof.
  induction l as [|m l IH]; [by intros ?%elem_of_nil|].
  intros Hin. simpl. destruct (decide (m = n)); [done|].
  rewrite IH; [done|]. set_solver.
Qed.

Lemma before_first_app_notin n l l' :
  n ∉ l → before_first n (l ++ n :: l') = l.
Proof.
  induction l as [|m l IH]; intros Hnotin; simpl.
  - by rewrite decide_True.
  - rewrite decide_False by set_solver. rewrite IH; [done|set_solver].
Qed.

Lemma before_first_notin n l : n ∉ before_first n l.
Proof.
  induction l as [|m l IH]; [set_solver|]. simpl.
  destruct (decide (m = n)); set_solver.
Qed.

Lemma before_first_lookup n l : n ∈ l → l !! length (before_first n l) = Some n.
Proof.
  induction l as [|m l IH]; [by intros ?%elem_of_nil|].
  intros Hin. simpl. destruct (decide (m = n)) as [->|Hne]; [done|].
  simpl. apply IH. set_solver.
Qed.

Lemma before_first_earlier n m l :
  length (before_first n l) < length (before_first m l) →
  list_to_set (before_first n l) ∪ {[n]} ⊆@{gset string} list_to_set (before_first m l).
Proof.
  induction l as [|x l IH]; simpl; [lia|].
  destruct (decide (x = m)) as [->|Hm]; simpl; [lia|].
  destruct (decide (x = n)) as [->|Hn]; simpl; [set_solver|].
  intros Hlt. assert (Hlt' : length (before_first n l) < length (before_first m l)) by lia.
  specialize (IH Hlt'). set_solver.
Qed.

Lemma distinct_snoc_in n l : n ∈ l → distinct (l ++ [n]) = distinct l.
Proof.
  intros Hin. unfold distinct. f_equal. set_solver.
Qed.

Lemma distinct_snoc_notin n l : n ∉ l → distinct (l ++ [n]) = S (distinct l).
Proof.
  intros Hnotin. unfold distinct.
  rewrite list_to_set_snoc_L, size_union by set_solver.
  rewrite size_singleton. lia.
Qed.

(** Indices follow the order of first appearance. *)
Lemma position_earlier n m l :
  length (before_first n l) < length (before_first m l) →
  position n l < position m l.
Proof.
  intros Hlt. apply before_first_earlier in Hlt.
  apply subseteq_size in Hlt.
  rewrite size_union in Hlt
    by (pose proof (before_first_notin n l); set_solver).
  rewrite size_singleton in Hlt. unfold position, distinct. lia.
Qed.

Lemma position_inj n m l :
  n ∈ l → m ∈ l → position n l = position m l → n = m.
Proof.
  intros Hn Hm Heq.
  destruct (Nat.lt_trichotomy (length (before_first n l)) (length (before_first m l)))
    as [Hlt|[Hlen|Hlt]].
  - apply position_earlier in Hlt. lia.
  - apply before_first_lookup in Hn, Hm. rewrite Hlen in Hn. congruence.
  - apply position_earlier in Hlt. lia.
Qed.

Lemma position_app_in n l l' : n ∈ l → position n (l ++ l') = position n l.
Proof. intros Hin. unfold position. by rewrite before_first_app_in. Qed.

Lemma position_snoc_notin n l : n ∉ l → position n (l ++ [n]) = S (distinct l).
Proof. intros Hnotin. unfold position. by rewrite before_first_app_notin. Qed.

Lemma translating_init ps : translating ps [] replacer_init.
Proof.
  unfold translating, distinct. rewrite list_to_set_nil, size_empty.
  split_and!; try done. by intros n ?%elem_of_nil.
Qed.

(** One call of the replacer callback. *)
Lemma on_match_step ps pre st n :
  translating ps pre st →
  (on_match ps n st).1 = "$" +:+ pretty (position n (pre ++ [n])) ∧
  translating ps (pre ++ [n]) (on_match ps n st).2.
Proof.
  intros (Hidx & Hlen & Hin & Hnotin). unfold on_match.
  destruct (decide (n ∈ pre)) as [Hn|Hn].
  - destruct (Hin n Hn) as [Hmap Hval]. rewrite Hmap.
    cbn [fst snd]. rewrite Hmap. cbn [default from_option id].
    rewrite position_app_in by done. split; [done|].
    unfold translating. rewrite distinct_snoc_in by done.
    split_and!; try done.
    + intros m Hm. rewrite position_app_in; [apply Hin|]; set_solver.
    + intros m Hm. apply Hnotin. set_solver.
  - rewrite (Hnotin n Hn). cbn [fst snd paramMap paramIndex values].
    rewrite lookup_insert_eq. cbn [default from_option id].
    rewrite position_snoc_notin, Hidx by done. split; [done|].
    unfold translating. cbn [paramMap paramIndex values].
    rewrite distinct_snoc_notin by done.
    split_and!; try done.
    + rewrite length_app. simpl. lia.
    + intros m [Hm| ->%list_elem_of_singleton]%elem_of_app.
      * destruct (Hin m Hm) as [Hmap Hval].
        rewrite position_app_in by done.
        rewrite lookup_insert_ne by (intros ->; done).
        split; [done|]. rewrite lookup_app_l; [done|]. by eapply lookup_lt_Some.
      * rewrite position_snoc_notin by done. rewrite lookup_insert_eq.
        split; [done|].
        replace (S (distinct pre) - 1) with (length (values st)) by lia.
        by rewrite list_lookup_middle.
    + intros m Hm. rewrite lookup_insert_ne by set_solver.
      apply Hnotin. set_solver.
Qed.

(** The whole replacement. *)
Lemma replace_all_spec ps segs : ∀ pre st,
  translating ps pre st →
  (replace_all ps segs st).1
    = render (fun n => position n (pre ++ names_of segs)) segs ∧
  translating ps (pre ++ names_of segs) (replace_all ps segs st).2.
Proof.
  induction segs as [|[c|n] segs IH]; intros pre st Hst.
  - simpl. rewrite app_nil_r. split; [reflexivity|exact Hst].
  - destruct (IH pre st Hst) as [Hout Hst'].
    cbn [replace_all]. destruct (replace_all ps segs st) as [out st'].
    cbn [fst snd] in *. split; [|done].
    change (names_of (Plain c :: segs)) with (names_of segs).
    by rewrite Hout.
  - destruct (on_match_step ps pre st n Hst) as [Hpiece Hst1].
    cbn [replace_all]. destruct (on_match ps n st) as [piece st1].
    cbn [fst snd] in *.
    destruct (IH (pre ++ [n]) st1 Hst1) as [Hout Hst2].
    destruct (replace_all ps segs st1) as [out st2].
    cbn [fst snd] in *.
    change (names_of (Token n :: segs)) with (n :: names_of segs).
    replace (pre ++ n :: names_of segs)
      with ((pre ++ [n]) ++ names_of segs) by (by rewrite <- app_assoc).
    split; [|done].
    rewrite Hpiece, Hout. cbn [render].
    by rewrite (position_app_in n (pre ++ [n])) by set_solver.
Qed.

(** What [transformQuery] returns for a mapping that is not empty. *)
Lemma transformQuery_spec (q : string) (ps : js_object) :
  own ps ≠ ∅ →
  let r := transformQuery q (Some ps) in
  let names := param_names q in
  query r = render (fun n => position n names) (scan q) ∧
  length (bound r) = distinct names ∧
  (∀ n, n ∈ names → bound r !! (position n names - 1) = Some (param_get ps n)).
Proof.
  intros Hps r names. subst r. unfold transformQuery.
  destruct (decide (size (own ps) = 0)) as [H0|_];
    [by apply map_size_empty_inv in H0|].
  destruct (replace_all_spec ps (scan q) [] replacer_init (translating_init ps))
    as [Hout (_ & Hlen & Hin & _)].
  destruct (replace_all ps (scan q) replacer_init) as [out st]. simpl in *.
  split_and!; [done|done|]. intros n Hn. by apply Hin.
Qed.

(** *** The scanner finds the tokens of the specification *)

Lemma is_word_char_spec (c : ascii) : is_word_char c = word_character c.
Proof. destruct c as [[] [] [] [] [] [] [] []]; vm_compute; reflexivity. Qed.

Lemma is_sigil_spec (c : ascii) : is_sigil c = true ↔ c = sigil.
Proof.
  split; [apply is_sigil_at|]. by intros ->.
Qed.

Lemma take_word_none (s : string) :
  starts_with_word_character s = false → take_word s = "".
Proof.
  destruct s as [|c s]; [done|]. simpl. rewrite is_word_char_spec. by intros ->.
Qed.

Lemma take_drop_word_app (name after : string) :
  word name = true → starts_with_word_character after = false →
  take_word (name +:+ after) = name ∧ drop_word (name +:+ after) = after.
Proof.
  intros Hname Hafter. induction name as [|c name IH]; simpl.
  - rewrite take_word_none by done. split; [done|].
    destruct after as [|d after]; [done|]. simpl in *.
    by rewrite is_word_char_spec, Hafter.
  - simpl in Hname. apply andb_prop in Hname as [Hc Hname].
    rewrite is_word_char_spec, Hc. destruct (IH Hname) as [-> ->]. done.
Qed.

Lemma scan_character (c : ascii) (rest : string) :
  c ≠ sigil ∨ starts_with_word_character rest = false →
  scan (String c rest) = Plain c :: scan rest.
Proof.
  intros [Hc|Hrest]; simp scan.
  - destruct (is_sigil c) eqn:Hs; [by apply is_sigil_spec in Hs|].
    by simp scan.
  - rewrite take_word_none by done. destruct (is_sigil c); by simp scan.
Qed.

Lemma scan_token (name after : string) :
  name ≠ "" → word name = true → starts_with_word_character after = false →
  scan (String sigil (name +:+ after)) = Token name :: scan after.
Proof.
  intros Hne Hname Hafter. simp scan.
  destruct (take_drop_word_app name after Hname Hafter) as [Htake Hdrop].
  rewrite Htake. change (is_sigil sigil) with true.
  destruct name as [|d w]; [done|]. simp scan. by rewrite Hdrop.
Qed.

Lemma word_take_word (s : string) : word (take_word s) = true.
Proof.
  induction s as [|c s IH]; simpl; [done|].
  destruct (is_word_char c) eqn:Hc; simpl; [|done].
  by rewrite <- is_word_char_spec, Hc.
Qed.

Lemma drop_word_start (s : string) : starts_with_word_character (drop_word s) = false.
Proof.
  induction s as [|c s IH]; simpl; [done|].
  destruct (is_word_char c) eqn:Hc; [done|].
  simpl. by rewrite <- is_word_char_spec.
Qed.

(** What [scan] returns is the one way to read the text as tokens. *)
Lemma scan_tokenises (q : string) : tokenises q (scan q).
Proof.
  funelim (scan q); simp scan; try rewrite Heq; simpl.
  - constructor.
  - constructor; [|done]. right.
    destruct rest as [|d rest]; [done|]. simpl in *.
    rewrite <- is_word_char_spec. by destruct (is_word_char d).
  - apply is_sigil_at in Heq0 as ->.
    rewrite <- (take_drop_word rest) at 1. rewrite Heq.
    apply tokenises_token; [done| |apply drop_word_start|done].
    rewrite <- Heq. apply word_take_word.
  - constructor; [|done]. left. by intros ->.
Qed.

Lemma tokenises_scan (q : string) (segs : list segment) :
  tokenises q segs → segs = scan q.
Proof.
  induction 1 as [|c rest segs Hc _ ->|name after segs Hne Hname Hafter _ ->].
  - by simp scan.
  - by rewrite scan_character.
  - by rewrite scan_token.
Qed.

(** C1. For a mapping that is not empty, [transformQuery] gives every name
    that occurs in a token of the text one index: the first name to appear
    gets 1, and a name gets one more than the number of distinct names that
    appear before it, so that different names get different indices, in
    order of first appearance.  Every token is replaced by the placeholder
    of the index of its name and the rest of the text is kept, the value
    read for the name stands at that index in the value list, and the list
    is as long as there are distinct names: a repeated name adds nothing to
    it. *)
Theorem transformQuery_assigns_indices (q : string) (ps : js_object) :
  own ps ≠ ∅ →
  ∃ segs, tokenises q segs ∧ (∀ segs', tokenises q segs' → segs' = segs) ∧
    let r := transformQuery q (Some ps) in
    let names := names_of segs in
    query r = render (fun n => position n names) segs ∧
    length (bound r) = distinct names ∧
    (∀ n, n ∈ names →
       1 ≤ position n names ≤ distinct names ∧
       bound r !! (position n names - 1) = Some (property ps n)) ∧
    (∀ n m, n ∈ names → m ∈ names → position n names = position m names → n = m) ∧
    (∀ n m, length (before_first n names) < length (before_first m names) →
            position n names < position m names) ∧
    (∀ n rest, names = n :: rest → position n names = 1).
Proof.
  intros Hps. exists (scan q). split; [apply scan_tokenises|].
  split; [intros segs' Hsegs'; by apply tokenises_scan|].
  intros r names.
  destruct (transformQuery_spec q ps Hps) as (Hq & Hlen & Hval).
  fold r in Hq, Hlen, Hval. change (param_names q) with names in Hq, Hlen, Hval.
  split_and!; try done.
  - intros n Hn. specialize (Hval n Hn). split; [|done].
    apply lookup_lt_Some in Hval. unfold position in *. lia.
  - intros n m. apply position_inj.
  - intros n m. apply position_earlier.
  - intros n rest ->. unfold position. simpl. rewrite decide_True by done.
    unfold distinct. by rewrite list_to_set_nil, size_empty.
Qed.

Lemma transformQuery_assigns_indices_witness :
  let q := "SELECT * FROM t WHERE a=@x AND b=@x OR c=@y" in
  let ps := plain {[ "x" := VNum (Number "5" true); "y" := VStr "k" ]} in
  own ps ≠ ∅ ∧
  ∃ segs, tokenises q segs ∧
    names_of segs = ["x"; "x"; "y"] ∧
    query (transformQuery q (Some ps))
    = render (fun n => position n (names_of segs)) segs ∧
    render (fun n => position n (names_of segs)) segs
    = "SELECT * FROM t WHERE a=$1 AND b=$1 OR c=$2" ∧
    length (bound (transformQuery q (Some ps))) = distinct (names_of segs) ∧
    bound (transformQuery q (Some ps)) = [VNum (Number "5" true); VStr "k"].
Proof.
  assert (H : own (plain {[ "x" := VNum (Number "5" true); "y" := VStr "k" ]}) ≠ ∅)
    by (intros H; by apply (f_equal (lookup "x")) in H).
  split; [exact H|].
  destruct (transformQuery_assigns_indices
              "SELECT * FROM t WHERE a=@x AND b=@x OR c=@y"
              (plain {[ "x" := VNum (Number "5" true); "y" := VStr "k" ]}) H)
    as (segs & Htok & _ & Hq & Hlen & _).
  exists segs. split; [exact Htok|].
  apply tokenises_scan in Htok. subst segs.
  split; [vm_compute; reflexivity|]. split; [exact Hq|].
  split; [vm_compute; reflexivity|]. split; [exact Hlen|].
  vm_compute; reflexivity.
Defined.

(** C9 as stated fails for a name that the mapping does not hold but its
    prototype chain does: [@toString] with the mapping [{x: 1}] is bound to
    the function every object inherits, not to [undefined]. *)
Lemma inherited_name_is_not_undefined :
  ¬ missing_key_binds_undefined "SELECT @toString"
      (plain {[ "x" := VNum (Number "1" true) ]}) "toString".
Proof.
  intros H.
  specialize (H (scan "SELECT @toString") (scan_tokenises _)).
  assert (Hin : "toString" ∈ names_of (scan "SELECT @toString"))
    by (vm_compute; set_solver).
  specialize (H Hin eq_refl). vm_compute in H. discriminate.
Qed.

Example inherited_name_binds_function :
  transformQuery "SELECT @toString" (Some (plain {[ "x" := VNum (Number "1" true) ]}))
  = {| query := "SELECT $1";
       bound := [VObject "function toString() { [native code] }"] |}.
Proof. vm_compute. reflexivity. Qed.

(** C9, as the code has it.  A token whose name is no key of the mapping is
    translated like any other: [transformQuery] has no failing path, the
    token is replaced by the placeholder of its index, and the value list
    holds at that index what reading the name on the mapping gives:
    [undefined] when the prototype chain does not hold the name either,
    and what it holds otherwise. *)
Theorem missing_key_binds_property_read (q : string) (ps : js_object)
    (segs : list segment) (n : string) :
  own ps ≠ ∅ →
  tokenises q segs →
  n ∈ names_of segs →
  own ps !! n = None →
  let r := transformQuery q (Some ps) in
  let names := names_of segs in
  query r = render (fun m => position m names) segs ∧
  1 ≤ position n names ≤ length (bound r) ∧
  bound r !! (position n names - 1) = Some (default VUndefined (inherited ps n)) ∧
  (inherited ps n = None → bound r !! (position n names - 1) = Some VUndefined) ∧
  (∀ this w c, heap w !! this = Some {| _query := q; _client := c |} →
     Statement.transform this (Some ps) w = (Returned r, w)).
Proof.
  intros Hps Htok Hn Hmiss r names.
  apply tokenises_scan in Htok. subst segs.
  destruct (transformQuery_spec q ps Hps) as (Hq & Hlen & Hval).
  fold r in Hq, Hlen, Hval. change (param_names q) with names in Hq, Hlen, Hval.
  specialize (Hval n Hn). unfold param_get, property in Hval.
  rewrite Hmiss in Hval.
  split_and!; try done.
  - unfold position. lia.
  - apply lookup_lt_Some in Hval. unfold position in *. lia.
  - intros Hnone. by rewrite Hnone in Hval.
  - intros this w c Hthis. unfold Statement.transform. eff_unfold.
    simpl. by rewrite Hthis.
Qed.

Lemma missing_key_binds_property_read_witness :
  let q := "SELECT * FROM t WHERE a=@x AND b=@y" in
  let ps := plain {[ "x" := VNum (Number "5" true) ]} in
  own ps ≠ ∅ ∧ tokenises q (scan q) ∧ "y" ∈ names_of (scan q) ∧
  own ps !! "y" = None ∧ inherited ps "y" = None ∧
  transformQuery q (Some ps)
  = {| query := "SELECT * FROM t WHERE a=$1 AND b=$2";
       bound := [VNum (Number "5" true); VUndefined] |} ∧
  bound (transformQuery q (Some ps)) !! (position "y" (names_of (scan q)) - 1)
  = Some VUndefined.
Proof.
  assert (H : own (plain {[ "x" := VNum (Number "5" true) ]}) ≠ ∅)
    by (intros H; by apply (f_equal (lookup "x")) in H).
  assert (Hy : "y" ∈ names_of (scan "SELECT * FROM t WHERE a=@x AND b=@y"))
    by (vm_compute; set_solver).
  split; [exact H|]. split; [apply scan_tokenises|]. split; [exact Hy|].
  split; [reflexivity|]. split; [reflexivity|].
  split; [vm_compute; reflexivity|].
  apply (missing_key_binds_property_read
           "SELECT * FROM t WHERE a=@x AND b=@y"
           (plain {[ "x" := VNum (Number "5" true) ]})
           (scan "SELECT * FROM t WHERE a=@x AND b=@y") "y"
           H (scan_tokenises _) Hy eq_refl).
  reflexivity.
Defined.

End TranslatorFacts.

(** ** The parameter translator, beyond the specification *)

Section TranslatorBehaviour.

Import Translator Spec Behaviour.

Lemma render_without_tokens index segs :
  names_of segs = [] → render index segs = unscan segs.
Proof.
  induction segs as [|[c|n] segs IH]; [done| |done].
  intros H. simpl. by rewrite IH.
Qed.

Lemma scan_without_sigil q : has_sigil q = false → param_names q = [].
Proof.
  unfold param_names.
  funelim (scan q); simp scan; try rewrite Heq; simpl.
  - done.
  - rewrite Heq0. done.
  - rewrite Heq0. done.
  - rewrite Heq. simpl. intros Hq. by apply H.
Qed.

Lemma transformQuery_no_token (q : string) (ps : parameters) :
  param_names q = [] → transformQuery q ps = {| query := q; bound := [] |}.
Proof.
  intros Hnames.
  destruct ps as [ps|]; [|done].
  destruct (decide (own ps = ∅)) as [Hps|Hps].
  { unfold transformQuery. by rewrite Hps. }
  destruct (transformQuery_spec q ps Hps) as (Hquery & Hlen & _).
  rewrite Hnames in Hquery, Hlen.
  rewrite render_without_tokens, scan_unscan in Hquery by done.
  destruct (transformQuery q (Some ps)) as [text vals]. simpl in *.
  apply nil_length_inv in Hlen. by subst.
Qed.

(** A text that holds no token goes through [transformQuery] as it is and
    binds no value, whatever the mapping; a text with no sigil is one. *)
Theorem text_without_tokens_unchanged (q : string) (ps : parameters) :
  has_sigil q = false ∨ param_names q = [] →
  transformQuery q ps = {| query := q; bound := [] |}.
Proof.
  intros Hq. apply transformQuery_no_token.
  destruct Hq; [by apply scan_without_sigil|done].
Qed.

Lemma text_without_tokens_unchanged_witness :
  transformQuery "SELECT 'me@' || host, 100 @ 3 FROM t" (Some (plain {[ "host" := VNum (Number "1" true) ]}))
  = {| query := "SELECT 'me@' || host, 100 @ 3 FROM t"; bound := [] |}.
Proof.
  apply (text_without_tokens_unchanged "SELECT 'me@' || host, 100 @ 3 FROM t").
  right. vm_compute. reflexivity.
Defined.

Lemma first_occurrences_snoc l n :
  first_occurrences (l ++ [n])
  = if decide (n ∈ l) then first_occurrences l else first_occurrences l ++ [n].
Proof.
  unfold first_occurrences. rewrite reverse_snoc. simpl.
  destruct (decide_rel elem_of n (reverse l)) as [Hin|Hin];
    rewrite elem_of_reverse in Hin.
  - by rewrite decide_True.
  - by rewrite decide_False, reverse_cons.
Qed.

Lemma on_match_values ps pre st n :
  translating ps pre st →
  values st = map (param_get ps) (first_occurrences pre) →
  values (on_match ps n st).2
  = map (param_get ps) (first_occurrences (pre ++ [n])).
Proof.
  intros (_ & _ & Hin & Hnotin) Hvals. unfold on_match.
  rewrite first_occurrences_snoc.
  destruct (decide (n ∈ pre)) as [Hn|Hn].
  - destruct (Hin n Hn) as [-> _]. done.
  - rewrite (Hnotin n Hn). cbn [snd values]. by rewrite Hvals, map_app.
Qed.

Lemma replace_all_values ps segs : ∀ pre st,
  translating ps pre st →
  values st = map (param_get ps) (first_occurrences pre) →
  values (replace_all ps segs st).2
  = map (param_get ps) (first_occurrences (pre ++ names_of segs)).
Proof.
  induction segs as [|[c|n] segs IH]; intros pre st Hst Hvals.
  - simpl. by rewrite app_nil_r.
  - cbn [replace_all]. specialize (IH pre st Hst Hvals).
    destruct (replace_all ps segs st) as [out st']. exact IH.
  - pose proof (on_match_step ps pre st n Hst) as [_ Hst1].
    pose proof (on_match_values ps pre st n Hst Hvals) as Hvals1.
    cbn [replace_all]. destruct (on_match ps n st) as [piece st1].
    cbn [fst snd] in *.
    specialize (IH (pre ++ [n]) st1 Hst1 Hvals1).
    destruct (replace_all ps segs st1) as [out st2]. cbn [fst snd] in *.
    change (names_of (Token n :: segs)) with (n :: names_of segs).
    by rewrite <- app_assoc in IH.
Qed.

Lemma transformQuery_bound (q : string) (ps : js_object) :
  own ps ≠ ∅ →
  bound (transformQuery q (Some ps))
  = map (param_get ps) (first_occurrences (param_names q)).
Proof.
  intros Hps. unfold transformQuery.
  destruct (decide (size (own ps) = 0)) as [H0|_];
    [by apply map_size_empty_inv in H0|].
  pose proof (replace_all_values ps (scan q) [] replacer_init
                (translating_init ps) eq_refl) as H.
  by destruct (replace_all ps (scan q) replacer_init).
Qed.

(** The value list is made of what reading each name of the text on the
    mapping gives (an own property, or else what the prototype chain holds,
    or else [undefined]), each name once, in the order in which the names
    first appear in a token. *)
Theorem bound_values_in_first_appearance_order (q : string) (ps : js_object)
    (segs : list segment) :
  own ps ≠ ∅ →
  tokenises q segs →
  let names := first_occurrences (names_of segs) in
  bound (transformQuery q (Some ps)) = map (property ps) names ∧
  NoDup names ∧
  (∀ n, n ∈ names ↔ n ∈ names_of segs).
Proof.
  intros Hps Htok names. apply tokenises_scan in Htok. subst segs.
  split; [by apply transformQuery_bound|].
  subst names. unfold first_occurrences. split.
  - rewrite reverse_Permutation. apply NoDup_remove_dups.
  - intros n. by rewrite elem_of_reverse, elem_of_remove_dups, elem_of_reverse.
Qed.

Lemma bound_values_in_first_appearance_order_witness :
  bound (transformQuery "UPDATE t SET a=@b, c=@a, d=@valueOf WHERE a=@b"
           (Some (plain {[ "a" := VNum (Number "1" true);
                           "b" := VNum (Number "2" true);
                           "z" := VNum (Number "26" true) ]})))
  = [VNum (Number "2" true); VNum (Number "1" true);
     VObject "function valueOf() { [native code] }"].
Proof.
  destruct (bound_values_in_first_appearance_order
              "UPDATE t SET a=@b, c=@a, d=@valueOf WHERE a=@b"
              (plain {[ "a" := VNum (Number "1" true);
                        "b" := VNum (Number "2" true);
                        "z" := VNum (Number "26" true) ]})
              (scan "UPDATE t SET a=@b, c=@a, d=@valueOf WHERE a=@b"))
    as [-> _].
  - intros H. by apply (f_equal (lookup "a")) in H.
  - apply scan_tokenises.
  - vm_compute. reflexivity.
Defined.

(** Entries of the mapping whose names the text does not use have no part
    in the result: two mappings that are not empty and agree on the names
    of the text, in that reading any of them gives the same on both, are
    translated alike.  Two object literals whose own properties agree on
    the names of the text are such mappings. *)
Theorem unused_parameters_ignored (q : string) :
  (∀ ps ps' : js_object,
     own ps ≠ ∅ → own ps' ≠ ∅ →
     (∀ n, n ∈ param_names q → property ps n = property ps' n) →
     transformQuery q (Some ps) = transformQuery q (Some ps')) ∧
  (∀ m m' : gmap string value,
     m ≠ ∅ → m' ≠ ∅ →
     (∀ n, n ∈ param_names q → m !! n = m' !! n) →
     transformQuery q (Some (plain m)) = transformQuery q (Some (plain m'))).
Proof.
  assert (Hgeneral : ∀ ps ps' : js_object,
     own ps ≠ ∅ → own ps' ≠ ∅ →
     (∀ n, n ∈ param_names q → property ps n = property ps' n) →
     transformQuery q (Some ps) = transformQuery q (Some ps')).
  { intros ps ps' Hps Hps' Hagree.
    pose proof (transformQuery_bound q ps Hps) as Hb.
    pose proof (transformQuery_bound q ps' Hps') as Hb'.
    destruct (transformQuery_spec q ps Hps) as (Hq & _).
    destruct (transformQuery_spec q ps' Hps') as (Hq' & _).
    destruct (transformQuery q (Some ps)) as [t b],
             (transformQuery q (Some ps')) as [t' b']. simpl in *.
    f_equal; [congruence|]. rewrite Hb, Hb'.
    apply map_ext_in. intros n Hn%list_elem_of_In.
    unfold param_get. rewrite Hagree; [done|].
    unfold first_occurrences in Hn.
    by rewrite elem_of_reverse, elem_of_remove_dups, elem_of_reverse in Hn. }
  split; [exact Hgeneral|].
  intros m m' Hm Hm' Hagree. apply Hgeneral; [done|done|].
  intros n Hn. unfold property, plain. simpl. by rewrite Hagree.
Qed.

Lemma unused_parameters_ignored_witness :
  transformQuery "SELECT * FROM t WHERE id=@id"
    (Some (plain {[ "id" := VNum (Number "1" true); "name" := VStr "x" ]}))
  = transformQuery "SELECT * FROM t WHERE id=@id"
      (Some (plain {[ "id" := VNum (Number "1" true) ]})).
Proof.
  apply (unused_parameters_ignored "SELECT * FROM t WHERE id=@id").
  - intros H. by apply (f_equal (lookup "id")) in H.
  - intros H. by apply (f_equal (lookup "id")) in H.
  - intros n Hn. vm_compute in Hn.
    apply list_elem_of_singleton in Hn as ->. reflexivity.
Defined.



Lemma has_sigil_app (a b : string) :
  has_sigil (a +:+ b) = has_sigil a || has_sigil b.
Proof.
  induction a as [|x a IH]; simpl; [done|]. by rewrite IH, orb_assoc.
Qed.









End TranslatorBehaviour.

(** ** The statement executor and the adapter, beyond the specification *)

Section ExecutionBehaviour.

Import Spec Behaviour.

(** An error of the backend reaches the caller of [run()], [all()] and
    [get()] as it is, and the connection has been released by then: the
    query and the release are all that happened. *)
Theorem statement_propagates_backend_error (this : Statement.ref) (q : string)
    (c : PoolClient) (w : world) (ps : parameters) (e : exn) :
  let t := Translator.transformQuery q ps in
  heap w !! this = Some {| _query := q; _client := Some c |} →
  answer c (trace w) (Translator.query t) (Translator.bound t) = inl e →
  (Statement.run this ps w).1 = Thrown e ∧
  (Statement.all this ps w).1 = Thrown e ∧
  (Statement.get this ps w).1 = Thrown e ∧
  ∀ entry, events_since w (call this entry ps w)
           = [Query (client_id c) (Translator.query t) (Translator.bound t);
              Release (client_id c)].
Proof.
  intros t Hthis Hans.
  rewrite (run_with_client this q c w Hthis), (all_with_client this q c w Hthis),
    (get_with_client this q c w Hthis).
  simpl. fold t. rewrite Hans. split_and!; try done.
  intros entry. rewrite (call_with_client this q c w Hthis).
  by rewrite events_since_app.
Qed.

Lemma statement_propagates_backend_error_witness :
  let w := (Statement.new "SELECT 1" (Some broken_client) fresh).2 in
  (Statement.all 0 None w).1 = Thrown (Error "connection lost") ∧
  events_since w (call 0 EntryAll None w) = [Query 0 "SELECT 1" []; Release 0].
Proof.
  destruct (statement_propagates_backend_error 0 "SELECT 1" broken_client
              (Statement.new "SELECT 1" (Some broken_client) fresh).2 None
              (Error "connection lost") eq_refl eq_refl) as (_ & Hall & _ & Hev).
  split; [exact Hall|exact (Hev EntryAll)].
Defined.

(** A statement serves one call.  After a first call, whatever it was and
    however it ended, [run()] and [get()] resolve with [undefined] and
    [all()] with no rows, without asking the backend anything. *)
Theorem statement_serves_one_call (this : Statement.ref) (q : string)
    (c : PoolClient) (w : world) (entry : entry_point) (ps ps' : parameters) :
  heap w !! this = Some {| _query := q; _client := Some c |} →
  let w1 := call this entry ps w in
  (Statement.run this ps' w1).1 = Returned None ∧
  (Statement.all this ps' w1).1 = Returned [] ∧
  (Statement.get this ps' w1).1 = Returned None ∧
  ∀ entry', trace (call this entry' ps' w1) = trace w1.
Proof.
  intros Hthis w1.
  assert (H1 : heap w1 !! this = Some {| _query := q; _client := None |}).
  { subst w1. rewrite (call_with_client this q c w Hthis).
    exact (lookup_alter_released _ _ _ Hthis). }
  rewrite (run_without_client this q w1 H1), (all_without_client this q w1 H1),
    (get_without_client this q w1 H1).
  split_and!; try done.
  intros entry'. by rewrite (call_without_client this q w1 H1).
Qed.

Lemma statement_serves_one_call_witness :
  let w := (Statement.new "SELECT * FROM information_schema.columns"
              (Some catalog_client) fresh).2 in
  (Statement.all 0 None w).1 = Returned (rows users_catalog) ∧
  (Statement.all 0 None (call 0 EntryAll None w)).1 = Returned [].
Proof.
  split; [reflexivity|].
  apply (statement_serves_one_call 0 "SELECT * FROM information_schema.columns"
           catalog_client
           (Statement.new "SELECT * FROM information_schema.columns"
              (Some catalog_client) fresh).2 EntryAll None None).
  reflexivity.
Defined.

(** [exec] on a pool that hands out a client sends the text as it is, with
    no values, and releases the client whether the backend executes the
    text or rejects it; it rejects with the error of the backend. *)
Theorem exec_releases_and_propagates (p : Pool) (c : PoolClient) (q : string)
    (w : world) :
  connect p (trace w) = inr c →
  let r := Adapter.exec {| Adapter._pool := Some p |} q w in
  events_since w r.2
    = [Connect (client_id c); Query (client_id c) q []; Release (client_id c)] ∧
  r.1 = match answer c (trace w ++ [Connect (client_id c)]) q [] with
        | inr _ => Returned tt
        | inl e => Thrown e
        end.
Proof.
  intros Hc r. subst r. unfold Adapter.exec. eff_unfold.
  simpl. rewrite Hc. simpl.
  rewrite !lookup_app_r by done. rewrite Nat.sub_diag. simpl.
  destruct (answer c _ _ _); simpl;
    rewrite !lookup_app_r by done; rewrite Nat.sub_diag; simpl;
    (split; [|done]); unfold events_since; simpl;
    rewrite <- !app_assoc; simpl; by rewrite drop_app_length.
Qed.

Lemma exec_releases_and_propagates_witness :
  events_since fresh (Adapter.exec (adapter_of steady_client) "VACUUM @now" fresh).2
  = [Connect 0; Query 0 "VACUUM @now" []; Release 0].
Proof.
  apply (exec_releases_and_propagates (pool_of steady_client) steady_client
           "VACUUM @now" fresh).
  reflexivity.
Defined.

(** On an adapter that was never connected, [exec], [createTable],
    [dropTable] and a prepared statement do not fail: they resolve, with an
    empty or absent result, and nothing is asked of any backend.  Only
    [transaction] and [tableColumnInformation] reject, each with its own
    message and before anything else happens. *)
Theorem unconnected_adapter_behaviour (q : string) (w : world)
    (columns : list TableBuilder.ColumnDefinition)
    (fn : list value → exn + unit) :
  (Adapter.transaction unconnected fn w).1
    = Thrown (Error "Database client is not available for transaction.") ∧
  (Adapter.transaction unconnected fn w).2 = w ∧
  Adapter.tableColumnInformation unconnected q w
    = (Thrown (Error "Database client is not available."), w) ∧
  (Adapter.exec unconnected q w).1 = Returned tt ∧
  trace (Adapter.exec unconnected q w).2 = trace w ∧
  (SchemaBuilder.createTable unconnected q (fun _ => inr columns) w).1 = Returned tt ∧
  trace (SchemaBuilder.createTable unconnected q (fun _ => inr columns) w).2 = trace w ∧
  (SchemaBuilder.dropTable unconnected q w).1 = Returned tt ∧
  trace (SchemaBuilder.dropTable unconnected q w).2 = trace w ∧
  (∀ ps,
     let prepared := Adapter.prepare unconnected q w in
     prepared.1 = Returned (length (heap w)) ∧
     (Statement.run (length (heap w)) ps prepared.2).1 = Returned None ∧
     (Statement.all (length (heap w)) ps prepared.2).1 = Returned [] ∧
     (Statement.get (length (heap w)) ps prepared.2).1 = Returned None ∧
     ∀ entry, trace (call (length (heap w)) entry ps prepared.2) = trace w).
Proof.
  assert (Hnew : ∀ text,
    (heap w ++ [{| _query := text; _client := None |}]) !! length (heap w)
    = Some {| _query := text; _client := None |})
    by (intros text; by rewrite list_lookup_middle).
  split_and!; [done|done|done|..].
  1-6: unfold SchemaBuilder.createTable, SchemaBuilder.dropTable,
         SchemaBuilder.run_callback, Adapter.prepare, Adapter.exec;
       eff_unfold; simpl; rewrite !Hnew; simpl; by rewrite ?Hnew.
  intros ps prepared.
  assert (Hp : prepared
    = (Returned (length (heap w)),
       {| trace := trace w;
          heap := heap w ++ [{| _query := q; _client := None |}] |})) by done.
  rewrite Hp. cbn [fst snd].
  set (w' := {| trace := trace w;
                heap := heap w ++ [{| _query := q; _client := None |}] |}).
  assert (Hw' : heap w' !! length (heap w)
                = Some {| _query := q; _client := None |}) by exact (Hnew q).
  rewrite (run_without_client _ q w' Hw'), (all_without_client _ q w' Hw'),
    (get_without_client _ q w' Hw').
  split_and!; try done.
  intros entry. by rewrite (call_without_client _ q w' Hw').
Qed.

(** When the pool rejects the request for a client, every operation of the
    adapter rejects with the error of the pool and leaves everything as it
    was: there is no client to release. *)
Theorem pool_rejection_propagates (p : Pool) (e : exn) (q : string) (w : world)
    (fn : list value → exn + unit) (columns : list TableBuilder.ColumnDefinition) :
  connect p (trace w) = inl e →
  let a := {| Adapter._pool := Some p |} in
  Adapter.exec a q w = (Thrown e, w) ∧
  Adapter.prepare a q w = (Thrown e, w) ∧
  (Adapter.transaction a fn w).1 = Thrown e ∧
  (Adapter.transaction a fn w).2 = w ∧
  Adapter.tableColumnInformation a q w = (Thrown e, w) ∧
  SchemaBuilder.createTable a q (fun _ => inr columns) w = (Thrown e, w) ∧
  SchemaBuilder.dropTable a q w = (Thrown e, w).
Proof.
  intros Hc a. subst a.
  unfold SchemaBuilder.createTable, SchemaBuilder.dropTable,
    SchemaBuilder.run_callback, Adapter.prepare, Adapter.exec,
    Adapter.transaction, Adapter.tableColumnInformation.
  eff_unfold. simpl. rewrite Hc. done.
Qed.

Lemma pool_rejection_propagates_witness :
  Adapter.exec {| Adapter._pool := Some exhausted_pool |} "SELECT 1" fresh
  = (Thrown (Error "timeout exceeded when trying to connect"), fresh).
Proof.
  apply (pool_rejection_propagates exhausted_pool
           (Error "timeout exceeded when trying to connect") "SELECT 1" fresh
           (fun _ => inr tt) []).
  reflexivity.
Defined.





(** The function a transaction resolves with is its [commit] closure: the
    transaction has released the client by the time it resolves, and the
    first thing a call of the function does is to send [COMMIT] again, on
    that released client. *)
Theorem transaction_handle_commits_again (p : Pool) (c : PoolClient) (w : world)
    (fn : list value → exn + unit) :
  connect p (trace w) = inr c →
  fn [] = inr tt →
  (∃ res, answer c (trace w ++ [Connect (client_id c)]) "BEGIN" [] = inr res) →
  (∃ res, commit_reply c w = inr res) →
  let r := Adapter.transaction {| Adapter._pool := Some p |} fn w in
  let id := client_id c in
  ∃ handle, r.1 = Returned handle ∧
    events_since w r.2
      = [Connect id; Query id "BEGIN" []; Query id "COMMIT" []; Release id] ∧
    ∃ rest, events_since r.2 (handle r.2).2 = Query id "COMMIT" [] :: rest.
Proof.
  intros Hc Hfn [r0 Hbegin] [r1 Hcommit] r id. subst r id.
  unfold commit_reply in Hcommit.
  replace (trace w ++ [Connect (client_id c); Query (client_id c) "BEGIN" []])
    with ((trace w ++ [Connect (client_id c)]) ++ [Query (client_id c) "BEGIN" []])
    in Hcommit by (by rewrite <- app_assoc).
  unfold Adapter.transaction. eff_unfold. simpl. rewrite Hc. simpl.
  rewrite Hbegin. simpl. rewrite Hfn. simpl. rewrite Hcommit. simpl.
  eexists. split; [done|]. split.
  - unfold events_since. simpl. rewrite <- !app_assoc. simpl.
    by rewrite drop_app_length.
  - unfold events_since. simpl.
    set (T := (((trace w ++ _) ++ _) ++ _) ++ _).
    destruct (answer c T "COMMIT" []); simpl.
    + exists []. by rewrite drop_app_length.
    + exists [Release (client_id c)]. rewrite <- app_assoc.
      by rewrite drop_app_length.
Qed.

Lemma transaction_handle_commits_again_witness :
  ∃ handle,
    (Adapter.transaction (adapter_of steady_client) (fun _ => inr tt) fresh).1
    = Returned handle ∧
    take 5 (trace (handle (Adapter.transaction (adapter_of steady_client)
                             (fun _ => inr tt) fresh).2).2)
    = [Connect 0; Query 0 "BEGIN" []; Query 0 "COMMIT" []; Release 0;
       Query 0 "COMMIT" []].
Proof.
  destruct (transaction_handle_commits_again (pool_of steady_client)
              steady_client fresh (fun _ => inr tt) eq_refl eq_refl)
    as (h & Hh & _); [by exists no_rows|by exists no_rows|].
  exists h. split; [exact Hh|].
  change (Returned (Adapter.commit steady_client) = Returned h) in Hh.
  injection Hh as <-. reflexivity.
Defined.

(** When the backend executes the catalog query, [tableColumnInformation]
    releases the client once and resolves with one record per row, in row
    order: the record of row [i] has [cid = i], the name, type and default
    the row holds, [notnull = 1] exactly when the row says [is_nullable] is
    ['NO'], and [pk = 0] whatever the table. *)
Theorem tableColumnInformation_describes_rows (p : Pool) (c : PoolClient)
    (w : world) (tableName : string) (res : QueryResult) :
  connect p (trace w) = inr c →
  answer c (trace w ++ [Connect (client_id c)]) Adapter.columns_query
    [VStr tableName] = inr res →
  let r := Adapter.tableColumnInformation {| Adapter._pool := Some p |} tableName w in
  events_since w r.2
    = [Connect (client_id c);
       Query (client_id c) Adapter.columns_query [VStr tableName];
       Release (client_id c)] ∧
  ∃ infos, r.1 = Returned infos ∧
    length infos = length (rows res) ∧
    ∀ i info, infos !! i = Some info →
      Adapter.cid info = i ∧ Adapter.pk info = 0 ∧
      ∃ row, rows res !! i = Some row ∧
        Adapter.name info = default VUndefined (row !! "column_name") ∧
        Adapter.type info = default VUndefined (row !! "data_type") ∧
        Adapter.dflt_value info = default VUndefined (row !! "column_default") ∧
        (Adapter.notnull info = 1 ↔ row !! "is_nullable" = Some (VStr "NO")) ∧
        (Adapter.notnull info = 0 ↔ row !! "is_nullable" ≠ Some (VStr "NO")).
Proof.
  intros Hc Hans r. subst r. unfold Adapter.tableColumnInformation. eff_unfold.
  simpl. rewrite Hc. simpl. rewrite Hans. simpl. split.
  { unfold events_since. simpl. rewrite <- !app_assoc. simpl.
    by rewrite drop_app_length. }
  eexists. split; [done|]. split; [by rewrite length_imap|].
  intros i info Hi. rewrite list_lookup_imap in Hi.
  destruct (rows res !! i) as [row|] eqn:Hrow; [|done].
  simpl in Hi. injection Hi as <-. simpl. split_and!; try done.
  exists row. unfold Adapter.field. split_and!; try done.
  - destruct (decide _) as [Heq|Hne]; split; try done.
    + intros _. destruct (row !! "is_nullable"); simpl in *; congruence.
    + intros Hn. destruct Hne. by rewrite Hn.
  - destruct (decide _) as [Heq|Hne]; split; try done.
    + intros Hn. destruct (row !! "is_nullable"); simpl in *; congruence.
    + intros _ Hn. destruct Hne. by rewrite Hn.
Qed.

Lemma tableColumnInformation_describes_rows_witness :
  (Adapter.tableColumnInformation (adapter_of catalog_client) "users" fresh).1
  = Returned
      [ {| Adapter.cid := 0; Adapter.name := VStr "id"; Adapter.type := VStr "integer";
           Adapter.notnull := 1;
           Adapter.dflt_value := VStr "nextval('users_id_seq'::regclass)";
           Adapter.pk := 0 |};
        {| Adapter.cid := 1; Adapter.name := VStr "email";
           Adapter.type := VStr "character varying"; Adapter.notnull := 0;
           Adapter.dflt_value := VNull; Adapter.pk := 0 |} ] ∧
  events_since fresh
    (Adapter.tableColumnInformation (adapter_of catalog_client) "users" fresh).2
  = [Connect 7; Query 7 Adapter.columns_query [VStr "users"]; Release 7].
Proof.
  split; [vm_compute; reflexivity|].
  apply (tableColumnInformation_describes_rows (pool_of catalog_client)
           catalog_client fresh "users" users_catalog); reflexivity.
Defined.

(** A callback that throws, as a modifier called before any column does,
    makes [createTable] reject with the error of the callback before a
    client is asked for: nothing is sent to the backend. *)
Theorem createTable_rejects_callback_error (a : Adapter.PostgresAdapter)
    (name : string)
    (callback : list TableBuilder.ColumnDefinition
                → exn + list TableBuilder.ColumnDefinition)
    (e : exn) (w : world) :
  callback [] = inl e →
  SchemaBuilder.createTable a name callback w = (Thrown e, w).
Proof.
  intros Hcb. unfold SchemaBuilder.createTable, SchemaBuilder.run_callback.
  eff_unfold. by rewrite Hcb.
Qed.

Lemma createTable_rejects_callback_error_witness :
  SchemaBuilder.createTable (adapter_of steady_client) "users"
    (fun t => TableBuilder.primaryKey t) fresh
  = (Thrown (Error "primaryKey() requires a previous column. Call a datatype method first."),
     fresh).
Proof.
  apply (createTable_rejects_callback_error (adapter_of steady_client) "users"
           (fun t => TableBuilder.primaryKey t)).
  reflexivity.
Defined.

(** On a pool that hands out a client, [createTable] sends exactly
    [CREATE TABLE IF NOT EXISTS <name> <columns as build() prints them>] and
    [dropTable] exactly [DROP TABLE IF EXISTS <name>], with no values; the
    client is released, and the operation resolves. *)
Theorem schema_operations_send_ddl (p : Pool) (c : PoolClient) (w : world)
    (name : string)
    (callback : list TableBuilder.ColumnDefinition
                → exn + list TableBuilder.ColumnDefinition)
    (columns : list TableBuilder.ColumnDefinition) :
  connect p (trace w) = inr c →
  callback [] = inr columns →
  let a := {| Adapter._pool := Some p |} in
  let id := client_id c in
  let create := "CREATE TABLE IF NOT EXISTS " +:+ name +:+ " " +:+
                TableBuilder.build columns in
  let drop := "DROP TABLE IF EXISTS " +:+ name in
  take 3 (events_since w (SchemaBuilder.createTable a name callback w).2)
    = [Connect id; Query id create []; Release id] ∧
  take 3 (events_since w (SchemaBuilder.dropTable a name w).2)
    = [Connect id; Query id drop []; Release id] ∧
  (SchemaBuilder.createTable a name callback w).1 = Returned tt ∧
  (SchemaBuilder.dropTable a name w).1 = Returned tt.
Proof.
  intros Hc Hcb a id create drop. subst a id create drop.
  unfold SchemaBuilder.createTable, SchemaBuilder.dropTable,
    SchemaBuilder.run_callback, Adapter.prepare.
  eff_unfold. simpl. rewrite Hcb, Hc. simpl.
  rewrite !lookup_app_r by done. rewrite Nat.sub_diag. simpl.
  split_and!; destruct (answer c _ _ _); simpl;
    rewrite !lookup_app_r by done; rewrite Nat.sub_diag; simpl; try done.
  all: unfold events_since; simpl; rewrite <- !app_assoc; simpl;
       by rewrite drop_app_length.
Qed.

Lemma schema_operations_send_ddl_witness :
  take 3 (events_since fresh
    (SchemaBuilder.createTable (adapter_of steady_client) "posts"
       (fun t => TableBuilder.unique (TableBuilder.string_ "slug" (VNum (Number "80" true)) t))
       fresh).2)
  = [Connect 0;
     Query 0 "CREATE TABLE IF NOT EXISTS posts (slug VARCHAR(80) UNIQUE)" [];
     Release 0].
Proof.
  apply (schema_operations_send_ddl (pool_of steady_client) steady_client fresh
           "posts"
           (fun t => TableBuilder.unique (TableBuilder.string_ "slug" (VNum (Number "80" true)) t))
           (TableBuilder.addColumn (TableBuilder.modifier ["UNIQUE"])
              (TableBuilder.string_ "slug" (VNum (Number "80" true)) [])));
    reflexivity.
Defined.

End ExecutionBehaviour.

(** ** The schema table builder, beyond the specification *)

Section TableBuilderBehaviour.

Import TableBuilder Spec Behaviour.

Lemma invoke_last (m : modifier_call) init l :
  invoke m (init ++ [l]) = inr (init ++ [apply_modifier m l]).
Proof.
  assert (Hne : init ++ [l] ≠ []) by (by destruct init).
  destruct m; simpl;
    unfold unique, primaryKey, foreignKey, nullable, defaultTo, increments;
    rewrite guarded_nonempty by done.
  1-5: by rewrite addColumn_modifier.
  unfold addColumn; simpl. by rewrite last_snoc, removelast_last.
Qed.

Lemma invoke_all_last ms init : ∀ l,
  invoke_all ms (init ++ [l])
  = inr (init ++ [foldl (fun l m => apply_modifier m l) l ms]).
Proof.
  induction ms as [|m ms IH]; intros l; [done|].
  cbn [invoke_all]. rewrite invoke_last. by rewrite IH.
Qed.

Lemma apply_modifier_keeps m l :
  name (apply_modifier m l) = name l ∧
  datatype (apply_modifier m l) = datatype l ∧
  default [] (constraints l) `prefix_of` default [] (constraints (apply_modifier m l)) ∧
  (autoincrement l = Some true → autoincrement (apply_modifier m l) = Some true).
Proof.
  unfold apply_modifier. destruct (constraint_of m); simpl; split_and!; try done.
  by apply prefix_app_r.
Qed.

Lemma chain_keeps ms : ∀ l,
  let l' := foldl (fun l m => apply_modifier m l) l ms in
  name l' = name l ∧ datatype l' = datatype l ∧
  default [] (constraints l) `prefix_of` default [] (constraints l') ∧
  (autoincrement l = Some true → autoincrement l' = Some true).
Proof.
  induction ms as [|m ms IH]; intros l; [done|].
  cbn [foldl]. destruct (IH (apply_modifier m l)) as (Hn & Hd & Hc & Ha).
  destruct (apply_modifier_keeps m l) as (Hn' & Hd' & Hc' & Ha').
  split_and!; [congruence|congruence|by etrans|auto].
Qed.

(** The constraints of a column are printed by [build()] after its name and
    datatype in the order in which the modifiers were called, a space before
    each, as long as [increments()] is not among them. *)
Theorem constraints_render_in_call_order (ms : list modifier_call)
    (init : list ColumnDefinition) (l : ColumnDefinition) :
  CallIncrements ∉ ms →
  autoincrement l ≠ Some true →
  ∃ l', invoke_all ms (init ++ [l]) = inr (init ++ [l']) ∧
    definition l' = with_suffixes (definition l) (omap constraint_of ms).
Proof.
  intros Hms Hauto. eexists. split; [apply invoke_all_last|].
  revert l Hauto. induction ms as [|m ms IH]; intros l Hauto; [done|].
  apply not_elem_of_cons in Hms as [Hm Hms].
  cbn [foldl]. unfold apply_modifier at 2.
  destruct m; try done; cbn [constraint_of omap]; unfold with_suffixes;
    cbn [foldl]; rewrite IH by done;
    by rewrite definition_with_constraint.
Qed.

Lemma constraints_render_in_call_order_witness :
  sum_map id build
    (invoke_all [CallForeignKey "users" "id"; CallNullable; CallDefaultTo (VNum (Number "1" true))]
       (integer "user_id" (text "title" [])))
  = inr "(title TEXT, user_id INTEGER REFERENCES users(id) NULLABLE DEFAULT 1)".
Proof.
  destruct (constraints_render_in_call_order
              [CallForeignKey "users" "id"; CallNullable; CallDefaultTo (VNum (Number "1" true))]
              [column "title" "TEXT"] (column "user_id" "INTEGER"))
    as (l' & Hall & Hdef); [set_solver|done|].
  change (integer "user_id" (text "title" []))
    with ([column "title" "TEXT"] ++ [column "user_id" "INTEGER"]).
  rewrite Hall. unfold build. simpl. rewrite Hdef. vm_compute. reflexivity.
Defined.

Lemma autoincrement_stays ms : ∀ l,
  autoincrement l = Some true →
  autoincrement (foldl (fun l m => apply_modifier m l) l ms) = Some true.
Proof.
  induction ms as [|m ms IH]; intros l Hl; [done|].
  cbn [foldl]. apply IH. by apply apply_modifier_keeps.
Qed.

(** Once [increments()] is among the modifiers of a column, [build()] prints
    the column as its name followed by [SERIAL] and nothing else: the
    datatype it was declared with and every constraint, whether added before
    or after, are left out. *)
Theorem increments_renders_serial_only (ms : list modifier_call)
    (init : list ColumnDefinition) (l : ColumnDefinition) :
  CallIncrements ∈ ms →
  ∃ l', invoke_all ms (init ++ [l]) = inr (init ++ [l']) ∧
    definition l' = template (name l) +:+ " SERIAL".
Proof.
  intros Hms. eexists. split; [apply invoke_all_last|].
  assert (Hauto : autoincrement (foldl (fun l m => apply_modifier m l) l ms)
                  = Some true).
  { revert l. induction ms as [|m ms IH]; intros l; [by apply elem_of_nil in Hms|].
    cbn [foldl]. apply elem_of_cons in Hms as [<-|Hms].
    - by apply autoincrement_stays.
    - by apply IH. }
  destruct (chain_keeps ms l) as [Hname _].
  unfold definition. by rewrite Hauto, Hname.
Qed.

Lemma increments_renders_serial_only_witness :
  sum_map id build (invoke_all [CallPrimaryKey; CallIncrements] (integer "id" []))
  = inr "(id SERIAL)".
Proof.
  destruct (increments_renders_serial_only [CallPrimaryKey; CallIncrements]
              [] (column "id" "INTEGER")) as (l' & Hall & Hdef); [set_solver|].
  change (integer "id" []) with ([] ++ [column "id" "INTEGER"]).
  rewrite Hall. unfold build. simpl. rewrite Hdef. reflexivity.
Defined.

Lemma rev_app_rev_app (a b c : string) :
  String.rev_app (String.rev_app a b) c = String.rev_app b (a +:+ c).
Proof.
  revert b c. induction a as [|x a IH]; intros b c; [done|].
  simpl. by rewrite IH.
Qed.

Lemma rev_app_snoc (a : string) (d : ascii) (acc : string) :
  String.rev_app (a +:+ String d "") acc = String d (String.rev_app a acc).
Proof. revert acc. induction a as [|x a IH]; intros acc; [done|]. simpl. by rewrite IH. Qed.

Lemma string_app_nil_r (a : string) : a +:+ "" = a.
Proof. induction a as [|x a IH]; simpl; [done|congruence]. Qed.

(** [trim] leaves a text that neither starts nor ends with white space. *)
Lemma trim_fixed (c d : ascii) (mid : string) :
  is_space c = false → is_space d = false →
  trim (String c (mid +:+ String d "")) = String c (mid +:+ String d "").
Proof.
  intros Hc Hd. unfold trim. cbn [trim_start]. rewrite Hc.
  assert (Hrev : String.rev (String c (mid +:+ String d ""))
                 = String d (String.rev_app mid (String c "")))
    by (unfold String.rev; simpl; by rewrite rev_app_snoc).
  rewrite Hrev. cbn [trim_start]. rewrite Hd, <- Hrev.
  unfold String.rev. rewrite rev_app_rev_app. simpl.
  by rewrite string_app_nil_r.
Qed.

Lemma type_text_ends (d : datatype_call) :
  ∃ c0 body e, type_text d = String c0 (body +:+ String e "") ∧
               is_space c0 = false ∧ is_space e = false.
Proof.
  destruct d as [|len| | |p s| | | | |]; simpl.
  - by exists "U"%char, "UI", "D"%char.
  - destruct (truthy len).
    + exists "V"%char, ("ARCHAR(" +:+ to_text len), ")"%char.
      split; [|done]. by rewrite string_app_assoc.
    + by exists "V"%char, "ARCHA", "R"%char.
  - by exists "T"%char, "EX", "T"%char.
  - by exists "I"%char, "NTEGE", "R"%char.
  - destruct (decide _).
    + by exists "D"%char, "ECIMA", "L"%char.
    + exists "D"%char, ("ECIMAL(" +:+ to_text p +:+ "," +:+ to_text s), ")"%char.
      split; [|done]. by rewrite !string_app_assoc.
  - by exists "R"%char, "EA", "L"%char.
  - by exists "B"%char, "OOLEA", "N"%char.
  - by exists "J"%char, "SON", "B"%char.
  - by exists "T"%char, "IMESTAM", "P"%char.
  - by exists "T"%char, "IM", "E"%char.
Qed.

Lemma declare_appends (d : datatype_call) (name : string) columns :
  declare d name columns = columns ++ [column name (type_text d)].
Proof.
  destruct d as [|len| | |p s| | | | |]; simpl;
    unfold uuid, string_, text, integer, decimal, float, boolean, json,
      timestamp, time;
    erewrite addColumn_named by done; try done.
  do 3 f_equal. destruct (decide (p ≠ VUndefined ∧ s ≠ VUndefined)) as [[Hp Hs]|H];
    destruct (decide (p = VUndefined ∨ s = VUndefined)) as [[?|?]|H']; try done.
  destruct H. split; intros ?; apply H'; auto.
Qed.

Lemma definition_column (c : ascii) (rest ty : string) (e : ascii) :
  is_space c = false → is_space e = false →
  definition (column (String c rest) (ty +:+ String e ""))
  = String c rest +:+ " " +:+ ty +:+ String e "".
Proof.
  intros Hc He. unfold definition, column. cbn [name datatype constraints
    autoincrement template default from_option id].
  change (String c rest +:+ " " +:+ ty +:+ String e "")
    with (String c (rest +:+ " " +:+ ty +:+ String e "")).
  replace (rest +:+ " " +:+ ty +:+ String e "")
    with ((rest +:+ " " +:+ ty) +:+ String e "")
    by (by rewrite !string_app_assoc).
  by apply trim_fixed.
Qed.

(** A column whose name is empty is printed as its type alone: the space
    that would stand before the type is trimmed away. *)
Lemma definition_column_unnamed (c0 : ascii) (body : string) (e : ascii) :
  is_space c0 = false → is_space e = false →
  definition (column "" (String c0 (body +:+ String e "")))
  = String c0 (body +:+ String e "").
Proof.
  intros Hc0 He. unfold definition, column. cbn [name datatype constraints
    autoincrement template default from_option id].
  pose proof (trim_fixed c0 e body Hc0 He) as Htrim.
  unfold trim in *. cbn [trim_start String.append] in *.
  change (is_space " ") with true. cbn iota. exact Htrim.
Qed.

(** Each datatype method adds one column after the ones the builder has and
    changes none of them.  [build()] prints the new column as the name, a
    space and the PostgreSQL type when the name does not start with white
    space, and as the type alone when the name is empty.  The type is
    [VARCHAR(n)] for a string with a truthy length, printed as [String]
    prints it, and [VARCHAR] otherwise; [DECIMAL(p,s)] for a decimal whose
    precision and scale are both other than [undefined], and [DECIMAL]
    otherwise. *)
Theorem datatype_column_renders (d : datatype_call)
    (columns : list ColumnDefinition) :
  (∀ (c : ascii) (rest : string),
     is_space c = false →
     map definition (declare d (String c rest) columns)
     = map definition columns ++ [String c rest +:+ " " +:+ type_text d]) ∧
  map definition (declare d "" columns)
  = map definition columns ++ [type_text d].
Proof.
  destruct (type_text_ends d) as (c0 & body & e & Hty & Hc0 & He).
  split.
  - intros c rest Hc. rewrite declare_appends, map_app. f_equal. simpl. f_equal.
    rewrite Hty. by apply (definition_column c rest (String c0 body) e).
  - rewrite declare_appends, map_app. f_equal. simpl. f_equal.
    rewrite Hty. by apply definition_column_unnamed.
Qed.

Lemma datatype_column_renders_witness :
  map definition
    (declare (DDecimal (VNum (Number "10" true)) (VNum (Number "2" true))) "price"
       (declare (DString (VNum (Number "0" false))) "title"
          (declare (DString (VNum (Number "1e+21" true))) "body"
             (declare DUuid "" []))))
  = ["UUID"; "body VARCHAR(1e+21)"; "title VARCHAR"; "price DECIMAL(10,2)"].
Proof.
  destruct (datatype_column_renders
              (DDecimal (VNum (Number "10" true)) (VNum (Number "2" true)))
              (declare (DString (VNum (Number "0" false))) "title"
                 (declare (DString (VNum (Number "1e+21" true))) "body"
                    (declare DUuid "" [])))) as [-> _]; [|reflexivity].
  destruct (datatype_column_renders (DString (VNum (Number "0" false)))
              (declare (DString (VNum (Number "1e+21" true))) "body"
                 (declare DUuid "" []))) as [-> _]; [|reflexivity].
  destruct (datatype_column_renders (DString (VNum (Number "1e+21" true)))
              (declare DUuid "" [])) as [-> _]; [|reflexivity].
  destruct (datatype_column_renders DUuid []) as [_ ->].
  reflexivity.
Defined.

(** [morphs(name)] adds two columns after the ones the builder has, printed
    as [<name>_id INTEGER] and [<name>_type VARCHAR] when the name does not
    start with white space. *)
Theorem morphs_appends_pair (c : ascii) (rest : string)
    (columns : list ColumnDefinition) :
  is_space c = false →
  let name := String c rest in
  morphs name columns
  = columns ++ [column (name +:+ "_id") "INTEGER"; column (name +:+ "_type") "VARCHAR"] ∧
  map definition (morphs name columns)
  = map definition columns ++ [name +:+ "_id INTEGER"; name +:+ "_type VARCHAR"].
Proof.
  intros Hc name.
  assert (Heq : morphs name columns
    = columns ++ [column (name +:+ "_id") "INTEGER";
                  column (name +:+ "_type") "VARCHAR"]).
  { unfold morphs, string_, integer.
    erewrite !addColumn_named by done. by rewrite <- app_assoc. }
  split; [done|]. rewrite Heq, map_app. f_equal. subst name.
  pose proof (definition_column c (rest +:+ "_id") "INTEGE" "R" Hc eq_refl) as Hid.
  pose proof (definition_column c (rest +:+ "_type") "VARCHA" "R" Hc eq_refl) as Hty.
  cbn [map]. change (String c rest +:+ "_id") with (String c (rest +:+ "_id")).
  change (String c rest +:+ "_type") with (String c (rest +:+ "_type")).
  change "INTEGER" with ("INTEGE" +:+ String "R" "").
  change "VARCHAR" with ("VARCHA" +:+ String "R" "").
  rewrite Hid, Hty. simpl. by rewrite !string_app_assoc.
Qed.

Lemma morphs_appends_pair_witness :
  build (morphs "commentable" [])
  = "(commentable_id INTEGER, commentable_type VARCHAR)".
Proof.
  unfold build.
  destruct (morphs_appends_pair "c" "ommentable" [] eq_refl) as [_ ->].
  reflexivity.
Defined.

(** [timestamps()] and [softDeletes()] never throw, not even on a builder
    that has no column, and change none of the columns the builder has:
    the first adds [created_at] and [updated_at], both defaulting to the
    current instant, the second adds [deleted_at], printed with the
    constraint [NULLABLE]. *)
Theorem fixed_helper_columns (columns : list ColumnDefinition) :
  (∃ created updated,
     timestamps columns = columns ++ [created; updated] ∧
     definition created = "created_at TIMESTAMP DEFAULT CURRENT_TIMESTAMP" ∧
     definition updated = "updated_at TIMESTAMP DEFAULT CURRENT_TIMESTAMP") ∧
  (∃ deleted,
     softDeletes columns = inr (columns ++ [deleted]) ∧
     definition deleted = "deleted_at TIMESTAMP NULLABLE").
Proof.
  split.
  - eexists _, _. split.
    + unfold timestamps. erewrite !addColumn_named by done.
      by rewrite <- app_assoc.
    + split; vm_compute; reflexivity.
  - eexists. split.
    + unfold softDeletes, nullable. erewrite addColumn_named by done.
      rewrite guarded_nonempty by (by destruct columns).
      by rewrite addColumn_modifier.
    + vm_compute. reflexivity.
Qed.

End TableBuilderBehaviour.
